(** * Event-loop test samples (PySide2): a virtual-time model and its properties

    The three sample files drive a toolkit event loop from unittest cases:
    - [leaky_tests.py]: unparented [QTimer.singleShot] timers;
    - [less_leaky_tests.py]: timers parented to a per-test [QObject] that is
      deleted in a cleanup;
    - [example_tests_and_visuals.py]: a [Controller] starting a [Worker]
      thread through a queued connection.

    The test code is embedded function by function.  The toolkit primitives it
    calls (the application object, timers, posted events, deferred deletion,
    the worker thread) are not part of the repository; they are modelled as a
    discrete-event simulation in virtual milliseconds, in which a callback
    takes no time and the loop dispatches the pending entry with the smallest
    due time, the earliest registered one first among equals. *)

From Stdlib Require Import ZArith List Bool Lia PeanoNat.
Import ListNotations.
Local Open Scope Z_scope.

(** ** Callables *)

(** Identity of a toolkit object ([QObject], [QCoreApplication], ...). *)
Definition QObject : Type := nat.

(** The Python callables that the samples hand to timers and signals.
    A closure is represented by its body; the objects it captures ([self],
    hence [self.qapp] and [self.test_qobj]) are fixed when it is built,
    because unittest gives every test method its own instance and [setUp]
    assigns those attributes once. *)
Inductive callable : Type :=
| qapp_quit                                   (* self.qapp.quit, QCoreApplication.quit *)
| qapp_exit (returnCode : Z)                  (* lambda: self.qapp.exit(returnCode) *)
| assertIsNotNone (v : option QObject)        (* self.assertIsNotNone(v) *)
| QTimer_singleShot (msec : Z) (f : callable) (* QTimer.singleShot(msec, f) *)
| single_shot (test_qobj : QObject) (timeout_ms : Z) (func : callable)
                                              (* self._single_shot(timeout_ms, func) *)
| seq (f g : callable)                        (* f; g *)
| Worker_start                                (* controller.worker.start *)
| on_worker_result (result : Z)               (* controller.on_worker_result(result) *)
| Worker_finished.                            (* end of Worker.run: emits finished *)

(** A pending dispatch: a running single-shot timer or a posted (queued)
    call.  [owner] is the parent object whose deletion destroys the timer. *)
Record entry : Type := mkEntry {
  due : Z;
  owner : option QObject;
  slot : callable
}.

(** ** The process-wide state *)

Record world : Type := mkWorld {
  now : Z;                          (* virtual clock, ms *)
  agenda : list entry;              (* pending entries, in registration order *)
  instance : option QObject;        (* QCoreApplication.instance() *)
  next_id : QObject;                (* next fresh object identity *)
  deferred_delete : list QObject;   (* posted DeferredDelete events *)
  in_exec : bool;                   (* an exec_() call is on the stack *)
  exit_req : option Z;              (* exit flag and return code of the running loop *)
  worker_running : bool;            (* controller.worker.isRunning() *)
  finished_quit : bool;             (* worker.finished -> QCoreApplication.quit, queued *)
  patched : bool;                   (* on_worker_result replaced by a mock *)
  mock_calls : list Z;              (* on_result.mock_calls *)
  stdout : list Z;                  (* results printed by the real slot *)
  draws : nat;                      (* numbers drawn from the generator so far *)
  rand : nat -> Z                   (* random.randint(1, 100), by draw index *)
}.

Definition set_now (t : Z) (w : world) : world :=
  mkWorld t (agenda w) (instance w) (next_id w) (deferred_delete w) (in_exec w)
          (exit_req w) (worker_running w) (finished_quit w) (patched w)
          (mock_calls w) (stdout w) (draws w) (rand w).

Definition set_agenda (a : list entry) (w : world) : world :=
  mkWorld (now w) a (instance w) (next_id w) (deferred_delete w) (in_exec w)
          (exit_req w) (worker_running w) (finished_quit w) (patched w)
          (mock_calls w) (stdout w) (draws w) (rand w).

Definition set_instance (i : option QObject) (w : world) : world :=
  mkWorld (now w) (agenda w) i (next_id w) (deferred_delete w) (in_exec w)
          (exit_req w) (worker_running w) (finished_quit w) (patched w)
          (mock_calls w) (stdout w) (draws w) (rand w).

Definition set_next_id (n : QObject) (w : world) : world :=
  mkWorld (now w) (agenda w) (instance w) n (deferred_delete w) (in_exec w)
          (exit_req w) (worker_running w) (finished_quit w) (patched w)
          (mock_calls w) (stdout w) (draws w) (rand w).

Definition set_deferred_delete (d : list QObject) (w : world) : world :=
  mkWorld (now w) (agenda w) (instance w) (next_id w) d (in_exec w)
          (exit_req w) (worker_running w) (finished_quit w) (patched w)
          (mock_calls w) (stdout w) (draws w) (rand w).

Definition set_in_exec (b : bool) (w : world) : world :=
  mkWorld (now w) (agenda w) (instance w) (next_id w) (deferred_delete w) b
          (exit_req w) (worker_running w) (finished_quit w) (patched w)
          (mock_calls w) (stdout w) (draws w) (rand w).

Definition set_exit_req (r : option Z) (w : world) : world :=
  mkWorld (now w) (agenda w) (instance w) (next_id w) (deferred_delete w) (in_exec w)
          r (worker_running w) (finished_quit w) (patched w)
          (mock_calls w) (stdout w) (draws w) (rand w).

Definition set_worker_running (b : bool) (w : world) : world :=
  mkWorld (now w) (agenda w) (instance w) (next_id w) (deferred_delete w) (in_exec w)
          (exit_req w) b (finished_quit w) (patched w)
          (mock_calls w) (stdout w) (draws w) (rand w).

Definition set_finished_quit (b : bool) (w : world) : world :=
  mkWorld (now w) (agenda w) (instance w) (next_id w) (deferred_delete w) (in_exec w)
          (exit_req w) (worker_running w) b (patched w)
          (mock_calls w) (stdout w) (draws w) (rand w).

Definition set_patched (b : bool) (w : world) : world :=
  mkWorld (now w) (agenda w) (instance w) (next_id w) (deferred_delete w) (in_exec w)
          (exit_req w) (worker_running w) (finished_quit w) b
          (mock_calls w) (stdout w) (draws w) (rand w).

Definition set_mock_calls (m : list Z) (w : world) : world :=
  mkWorld (now w) (agenda w) (instance w) (next_id w) (deferred_delete w) (in_exec w)
          (exit_req w) (worker_running w) (finished_quit w) (patched w)
          m (stdout w) (draws w) (rand w).

Definition set_stdout (s : list Z) (w : world) : world :=
  mkWorld (now w) (agenda w) (instance w) (next_id w) (deferred_delete w) (in_exec w)
          (exit_req w) (worker_running w) (finished_quit w) (patched w)
          (mock_calls w) s (draws w) (rand w).

Definition set_draws (n : nat) (w : world) : world :=
  mkWorld (now w) (agenda w) (instance w) (next_id w) (deferred_delete w) (in_exec w)
          (exit_req w) (worker_running w) (finished_quit w) (patched w)
          (mock_calls w) (stdout w) n (rand w).

(** A process in which nothing has happened yet. *)
Definition fresh_process (rnd : nat -> Z) : world :=
  mkWorld 0 [] None 0%nat [] false None false false false [] [] 0%nat rnd.

(** ** Toolkit primitives *)

(** Modelled from the spec: the toolkit's application singleton, absent from
    src/.  [QCoreApplication.instance()] is the existing application or None. *)
Definition QCoreApplication_instance (w : world) : option QObject := instance w.

(** Modelled from the spec: the toolkit's application constructor, absent from
    src/.  At most one application may exist: constructing a second one
    raises (None) and leaves the first in place. *)
Definition QCoreApplication_new (w : world) : option (QObject * world) :=
  match instance w with
  | Some _ => None
  | None => Some (next_id w, set_next_id (S (next_id w)) (set_instance (Some (next_id w)) w))
  end.

(** Modelled from the spec: the toolkit's object constructor, absent from src/.
    [QObject()] is a fresh object. *)
Definition QObject_new (w : world) : QObject * world :=
  (next_id w, set_next_id (S (next_id w)) w).

(** Modelled from the spec: the toolkit's single-shot timer, absent from src/.
    Starting a timer registers an entry due [msec] from now; the toolkit
    refuses a negative interval. *)
Definition QTimer_start (parent : option QObject) (msec : Z) (f : callable)
    (w : world) : world :=
  if msec <? 0 then w
  else set_agenda (agenda w ++ [mkEntry (now w + msec) parent f]) w.

(** Modelled from the spec: the toolkit's queued connection, absent from src/.
    The call is posted to the loop: dispatched by the loop, never run by the
    poster. *)
Definition postEvent (f : callable) (w : world) : world :=
  set_agenda (agenda w ++ [mkEntry (now w) None f]) w.

(** Modelled from the spec: the toolkit's [exit(returnCode)] ([quit] is
    [exit(0)]), absent from src/.  It asks the running loop to return
    [returnCode]; with no loop running there is nothing to stop. *)
Definition QCoreApplication_exit (returnCode : Z) (w : world) : world :=
  if in_exec w then set_exit_req (Some returnCode) w else w.

(** [Worker.run]: twenty times, sleep 100 ms then emit [resultReady] with a
    random number.  The result is the list of emissions (time, value) of a
    thread started at time [t] whose next draw has index [k]. *)
Fixpoint Worker_run_iter (iters : nat) (t : Z) (k : nat) (rnd : nat -> Z)
    : list (Z * Z) :=
  match iters with
  | O => []
  | S n => let t' := t + 100 in (t', rnd k) :: Worker_run_iter n t' (S k) rnd
  end.

Definition Worker_run (t : Z) (k : nat) (rnd : nat -> Z) : list (Z * Z) :=
  Worker_run_iter 20 t k rnd.

(** Modelled from the spec: the toolkit's delivery of signals across threads,
    absent from src/.  [resultReady] is emitted in the worker thread and its
    receiver lives in the loop's thread, so each emission is delivered as a
    posted call at the time it is made, in emission order. *)
Definition deliveries (em : list (Z * Z)) : list entry :=
  map (fun tv => mkEntry (fst tv) None (on_worker_result (snd tv))) em.

(** Modelled from the spec: the toolkit's thread start, absent from src/.
    Starting a thread that runs does nothing; otherwise [Worker.run] runs
    beside the loop: its emissions are delivered when they are made, and
    [finished] follows the last one. *)
Definition QThread_start (w : world) : world :=
  if worker_running w then w
  else
    let em := Worker_run (now w) (draws w) (rand w) in
    let t_end := now w + 100 * Z.of_nat (length em) in
    set_worker_running true
      (set_draws (draws w + length em)
         (set_agenda (agenda w ++ deliveries em ++ [mkEntry t_end None Worker_finished]) w)).

(** Calling a callable.  None: the callable raised (a failed assertion). *)
Fixpoint call (f : callable) (w : world) : option world :=
  match f with
  | qapp_quit => Some (QCoreApplication_exit 0 w)
  | qapp_exit c => Some (QCoreApplication_exit c w)
  | assertIsNotNone v => match v with Some _ => Some w | None => None end
  | QTimer_singleShot ms g => Some (QTimer_start None ms g w)
  | single_shot o ms g => Some (QTimer_start (Some o) ms g w)
  | seq g h => match call g w with Some w' => call h w' | None => None end
  | Worker_start => Some (QThread_start w)
  | on_worker_result v =>
      Some (if patched w then set_mock_calls (mock_calls w ++ [v]) w
            else set_stdout (stdout w ++ [v]) w)
  | Worker_finished =>
      let w' := set_worker_running false w in
      Some (if finished_quit w then postEvent qapp_quit w' else w')
  end.

(** Modelled from the spec: the order of dispatch of the toolkit's loop, absent
    from src/.  The next entry is the one with the smallest due time, the
    earliest registered among equals; it is returned with the remaining
    entries. *)
Fixpoint take_next (l : list entry) : option (entry * list entry) :=
  match l with
  | [] => None
  | e :: l' =>
      match take_next l' with
      | None => Some (e, [])
      | Some (m, r) => if due e <=? due m then Some (e, l') else Some (m, e :: r)
      end
  end.

(** An upper bound on the dispatches a callable can cause. *)
Fixpoint cost (f : callable) : nat :=
  match f with
  | QTimer_singleShot _ g => S (cost g)
  | single_shot _ _ g => S (cost g)
  | seq g h => S (cost g + cost h)
  | Worker_start => 23
  | Worker_finished => 2
  | _ => 1
  end%nat.

Definition weight (l : list entry) : nat :=
  fold_right (fun e n => (cost (slot e) + n)%nat) 0%nat l.

Inductive exit_status : Type :=
| Returned (returnCode : Z)   (* exec_() returned this code *)
| Blocked                     (* nothing pending and nothing can arrive: exec_() never returns *)
| CallbackRaised              (* a callable raised inside the dispatch *)
| OutOfFuel.

Record run : Type := mkRun {
  outcome : exit_status;
  final : world;
  fired : list entry            (* the entries dispatched, in order *)
}.

(** Modelled from the spec: the toolkit's event loop, absent from src/.
    Each turn dispatches the next entry at its due time; the loop returns as
    soon as a dispatched callable has requested an exit. *)
Fixpoint exec_loop (fuel : nat) (w : world) : run :=
  match fuel with
  | O => mkRun OutOfFuel w []
  | S k =>
      match take_next (agenda w) with
      | None => mkRun Blocked w []
      | Some (e, rest) =>
          let w1 := set_now (Z.max (now w) (due e)) (set_agenda rest w) in
          match call (slot e) w1 with
          | None => mkRun CallbackRaised w1 [e]
          | Some w2 =>
              match exit_req w2 with
              | Some c => mkRun (Returned c) (set_in_exec false w2) [e]
              | None =>
                  let r := exec_loop k w2 in
                  mkRun (outcome r) (final r) (e :: fired r)
              end
          end
      end
  end.

(** [qapp.exec_()]. *)
Definition exec_ (w : world) : run :=
  exec_loop (S (weight (agenda w))) (set_exit_req None (set_in_exec true w)).

(** Modelled from the spec: the toolkit's [deleteLater], absent from src/.
    It posts a DeferredDelete event for the object. *)
Definition deleteLater (o : QObject) (w : world) : world :=
  set_deferred_delete (deferred_delete w ++ [o]) w.

Definition owned_by (o : QObject) (e : entry) : bool :=
  match owner e with Some p => Nat.eqb p o | None => false end.

Definition doomed (d : list QObject) (e : entry) : bool :=
  existsb (fun o => owned_by o e) d.

(** Modelled from the spec: the toolkit's deferred deletion, absent from src/.
    [qapp.sendPostedEvents(event_type=QEvent.DeferredDelete)] deletes the
    objects whose deletion was posted, and with them the timers they own. *)
Definition sendPostedEvents_DeferredDelete (w : world) : world :=
  set_deferred_delete []
    (set_agenda (filter (fun e => negb (doomed (deferred_delete w) e)) (agenda w)) w).

(** Modelled from the spec: the toolkit's [processEvents], absent from src/.
    It dispatches what is already due, without waiting; no loop is running, so
    a stop request made meanwhile has nothing to stop. *)
Fixpoint processEvents_loop (fuel : nat) (w : world) : option world :=
  match fuel with
  | O => Some w
  | S k =>
      match take_next (agenda w) with
      | None => Some w
      | Some (e, rest) =>
          if due e <=? now w then
            match call (slot e) (set_agenda rest w) with
            | None => None
            | Some w2 => processEvents_loop k w2
            end
          else Some w
      end
  end.

Definition processEvents (w : world) : option world :=
  processEvents_loop (S (weight (agenda w))) w.

(** ** unittest *)

Inductive verdict : Type :=
| Passed
| Failed            (* an assertion of the test method failed *)
| Errored           (* the test method raised another exception *)
| NeverReturns      (* the test method blocks in exec_() *)
| DispatchRaised.   (* a callable raised inside the loop's dispatch *)

(** [self.assertEqual(expected, self.qapp.exec_())]. *)
Definition assertEqual_exec (expected : Z) (r : run) : verdict :=
  match outcome r with
  | Returned c => if c =? expected then Passed else Failed
  | Blocked => NeverReturns
  | CallbackRaised => DispatchRaised
  | OutOfFuel => NeverReturns
  end.

(** ** leaky_tests.py *)

Module LeakyTests.

Record self_t : Type := mkSelf { qapp : option QObject }.

(** [self.qapp = QCoreApplication.instance() or QCoreApplication()] *)
Definition setUp (w : world) : option (self_t * world) :=
  match QCoreApplication_instance w with
  | Some a => Some (mkSelf (Some a), w)
  | None =>
      match QCoreApplication_new w with
      | Some (a, w') => Some (mkSelf (Some a), w')
      | None => None
      end
  end.

(** [QTimer.singleShot(5000, lambda: self.qapp.exit(-1))] *)
Definition _fail_if_timeout (self : self_t) (w : world) : world :=
  QTimer_start None 5000 (qapp_exit (-1)) w.

Definition test_fail_if_timeout (self : self_t) (w : world) : verdict * run :=
  let w1 := _fail_if_timeout self w in
  let r := exec_ w1 in
  (assertEqual_exec (-1) r, r).

Definition do_task (self : self_t) : callable :=
  seq (assertIsNotNone (qapp self)) (QTimer_singleShot 3000 qapp_quit).

Definition test_one (self : self_t) (w : world) : verdict * run :=
  let w1 := QTimer_start None 0 (do_task self) w in
  let w2 := _fail_if_timeout self w1 in
  let r := exec_ w2 in
  (assertEqual_exec 0 r, r).

Definition test_two (self : self_t) (w : world) : verdict * run :=
  let w1 := QTimer_start None 0 (do_task self) w in
  let w2 := _fail_if_timeout self w1 in
  let r := exec_ w2 in
  (assertEqual_exec 0 r, r).

(** One test of the case as unittest runs it: [setUp], then the method. *)
Definition run_case (test : self_t -> world -> verdict * run) (w : world)
    : option (verdict * run) :=
  match setUp w with
  | Some (self, w1) => Some (test self w1)
  | None => None
  end.

End LeakyTests.

(** ** less_leaky_tests.py *)

Module LessLeakyTests.

Record self_t : Type := mkSelf { qapp : option QObject; test_qobj : QObject }.

(** [timer = QTimer(parent=self.test_qobj)], single shot, interval
    [timeout_ms], [timeout] connected to [func], started. *)
Definition _single_shot (self : self_t) (timeout_ms : Z) (func : callable)
    (w : world) : world :=
  QTimer_start (Some (test_qobj self)) timeout_ms func w.

Definition release_qt_resources (self : self_t) (w : world) : option world :=
  let w1 := deleteLater (test_qobj self) w in
  let w2 := sendPostedEvents_DeferredDelete w1 in
  processEvents w2.

(** [setUp]; the cleanup it registers is run by [run_case]. *)
Definition setUp (w : world) : option (self_t * world) :=
  match QCoreApplication_instance w with
  | Some a =>
      let (o, w1) := QObject_new w in Some (mkSelf (Some a) o, w1)
  | None =>
      match QCoreApplication_new w with
      | Some (a, w') =>
          let (o, w1) := QObject_new w' in Some (mkSelf (Some a) o, w1)
      | None => None
      end
  end.

Definition _fail_if_timeout (self : self_t) (w : world) : world :=
  _single_shot self 5000 (qapp_exit (-1)) w.

Definition do_task (self : self_t) : callable :=
  single_shot (test_qobj self) 3000 qapp_quit.

Definition test_one (self : self_t) (w : world) : verdict * run :=
  let w1 := _single_shot self 0 (do_task self) w in
  let w2 := _fail_if_timeout self w1 in
  let r := exec_ w2 in
  (assertEqual_exec 0 r, r).

Definition test_two (self : self_t) (w : world) : verdict * run :=
  let w1 := _single_shot self 0 (do_task self) w in
  let w2 := _fail_if_timeout self w1 in
  let r := exec_ w2 in
  (assertEqual_exec 0 r, r).

(** One test of the case as unittest runs it: [setUp], the method, then the
    registered cleanup.  The result is the verdict and the world the next
    test starts in (None: the cleanup raised). *)
Definition run_case (test : self_t -> world -> verdict * run) (w : world)
    : option (verdict * run * option world) :=
  match setUp w with
  | Some (self, w1) =>
      let vr := test self w1 in
      Some (vr, release_qt_resources self (final (snd vr)))
  | None => None
  end.

End LessLeakyTests.

(** ** example_tests_and_visuals.py *)

Record Controller : Type := mkController { controller_id : QObject; worker : QObject }.

(** [Controller()]: a worker is created; [startWorkers] is connected to
    [worker.start] through a queued connection, [resultReady] to
    [on_worker_result]. *)
Definition Controller_init (w : world) : Controller * world :=
  let (c, w1) := QObject_new w in
  let (k, w2) := QObject_new w1 in
  (mkController c k,
   set_mock_calls [] (set_patched false (set_finished_quit false (set_worker_running false w2)))).

(** [Controller.start]: [self.startWorkers.emit()], which posts the call of
    [worker.start]. *)
Definition Controller_start (c : Controller) (w : world) : world :=
  postEvent Worker_start w.

(** [controller.worker.isRunning()] *)
Definition isRunning (c : Controller) (w : world) : bool := worker_running w.

(** [test_controller_and_worker_better] with the interval of its timeout
    timer as a parameter; the sample uses 3000. *)
Definition controller_and_worker_with_timeout (interval : Z) (w : world)
    : option (verdict * run) :=
  match (match QCoreApplication_instance w with
         | Some a => Some (a, w)
         | None => QCoreApplication_new w
         end) with
  | None => None
  | Some (app, w0) =>
      let (controller, w1) := Controller_init w0 in
      let w2 := set_finished_quit true w1 in
      let w3 := QTimer_start (Some (controller_id controller)) interval (qapp_exit (-1)) w2 in
      let w4 := set_patched true w3 in
      let w5 := Controller_start controller w4 in
      let r := exec_ w5 in
      Some (match assertEqual_exec 0 r with
            | Passed =>
                if Nat.eqb (length (mock_calls (final r))) 20 then Passed else Failed
            | v => v
            end, r)
  end.

Definition test_controller_and_worker_better (w : world) : option (verdict * run) :=
  controller_and_worker_with_timeout 3000 w.

(** Line 67 of [test_controller_and_worker_good]:
    [app = QCoreApplication(sys.argv)], whatever exists already. *)
Definition test_controller_and_worker_good_app (w : world) : option (QObject * world) :=
  QCoreApplication_new w.

(** [test_controller_and_worker_bad]: no loop is run.  The first assertion is
    [self.assertTrue(controller.worker.isRunning())]. *)
Definition test_controller_and_worker_bad (w : world) : verdict * world :=
  let (controller, w1) := Controller_init w in
  let w2 := set_patched true w1 in
  let w3 := Controller_start controller w2 in
  if isRunning controller w3 then
    (* worker.wait() and the count of mock calls *)
    (if Nat.eqb (length (mock_calls w3)) 20 then Passed else Failed, w3)
  else (Failed, w3).

(** ** Predicates used by the properties *)

(** The fields a call leaves alone, and the entries it registers. *)
Record call_frame (f : callable) (w w' : world) : Prop := {
  cf_now : now w' = now w;
  cf_in_exec : in_exec w' = in_exec w;
  cf_instance : instance w' = instance w;
  cf_deferred : deferred_delete w' = deferred_delete w;
  cf_finished_quit : finished_quit w' = finished_quit w;
  cf_patched : patched w' = patched w;
  cf_agenda : exists added,
      agenda w' = agenda w ++ added /\ (weight added + 1 <= cost f)%nat
}.


(** [spawns f e]: calling [f] may register the entry [e]. *)
Inductive spawns : callable -> entry -> Prop :=
| spawns_singleShot ms g t : spawns (QTimer_singleShot ms g) (mkEntry t None g)
| spawns_single_shot o ms g t : spawns (single_shot o ms g) (mkEntry t (Some o) g)
| spawns_seq_l g h e : spawns g e -> spawns (seq g h) e
| spawns_seq_r g h e : spawns h e -> spawns (seq g h) e
| spawns_result t v : spawns Worker_start (mkEntry t None (on_worker_result v))
| spawns_finished t : spawns Worker_start (mkEntry t None Worker_finished)
| spawns_quit t : spawns Worker_finished (mkEntry t None qapp_quit).

(** No assertion inside the callable, or inside a callable it schedules, can
    fail. *)
Fixpoint raises_nothing (f : callable) : bool :=
  match f with
  | assertIsNotNone None => false
  | QTimer_singleShot _ g => raises_nothing g
  | single_shot _ _ g => raises_nothing g
  | seq g h => raises_nothing g && raises_nothing h
  | _ => true
  end.

Definition agenda_safe (w : world) : Prop :=
  Forall (fun e => raises_nothing (slot e) = true) (agenda w).

(** The exit code a callable asks for when it is one of the two stop requests
    of the samples. *)
Definition stops (f : callable) : option Z :=
  match f with
  | qapp_quit => Some 0
  | qapp_exit c => Some c
  | _ => None
  end.

(** What comes of one test of a case: the verdict and the loop run behind it. *)
Definition verdict_of {R : Type} (x : option (verdict * R)) : option verdict :=
  match x with Some (v, _) => Some v | None => None end.

(** The emissions come in the order of their times and none after [tend]. *)
Fixpoint ascending (em : list (Z * Z)) (tend : Z) : Prop :=
  match em with
  | [] => True
  | x :: em' => Forall (fun y => fst x <= fst y) em' /\ fst x <= tend /\ ascending em' tend
  end.

(** [mentions o f]: the callable [f] schedules, now or later, through the
    harness of the test whose owner object is [o]. *)
Fixpoint mentions (o : QObject) (f : callable) : bool :=
  match f with
  | single_shot o' _ g => Nat.eqb o' o || mentions o g
  | QTimer_singleShot _ g => mentions o g
  | seq g h => mentions o g || mentions o h
  | _ => false
  end.

(** [confined_callable o f]: [f] schedules only through the harness of the
    test of [o].  Every timer it starts, and every timer started by what it
    schedules, is started by [_single_shot] of that test; it calls neither
    [QTimer.singleShot] nor the [_single_shot] of another test, and it starts
    no worker, whose signals are delivered as calls that nobody owns. *)
Fixpoint confined_callable (o : QObject) (f : callable) : bool :=
  match f with
  | qapp_quit => true
  | qapp_exit _ => true
  | assertIsNotNone _ => true
  | QTimer_singleShot _ _ => false
  | single_shot o' _ g => Nat.eqb o' o && confined_callable o g
  | seq g h => confined_callable o g && confined_callable o h
  | Worker_start => false
  | on_worker_result _ => true
  | Worker_finished => false
  end.

Definition entry_confined (o : QObject) (e : entry) : bool :=
  if owned_by o e then confined_callable o (slot e) else negb (mentions o (slot e)).

(** A pending entry owned by [o] schedules only through the harness of [o];
    the other entries do not schedule through it at all. *)
Definition confined (o : QObject) (w : world) : Prop :=
  Forall (fun e => entry_confined o e = true) (agenda w).

Definition entry_foreign (o : QObject) (e : entry) : bool :=
  negb (owned_by o e) && negb (mentions o (slot e)).

(** Nothing pending belongs to the test of [o]. *)
Definition foreign (o : QObject) (w : world) : Prop :=
  Forall (fun e => entry_foreign o e = true) (agenda w).

(** All object identities an entry refers to are older than [n]. *)
Fixpoint callable_ids_below (n : QObject) (f : callable) : bool :=
  match f with
  | single_shot o' _ g => Nat.ltb o' n && callable_ids_below n g
  | QTimer_singleShot _ g => callable_ids_below n g
  | seq g h => callable_ids_below n g && callable_ids_below n h
  | _ => true
  end.

Definition entry_ids_below (n : QObject) (e : entry) : bool :=
  match owner e with Some p => Nat.ltb p n | None => true end
  && callable_ids_below n (slot e).

(** The timers a test registers through its harness, in order. *)
Definition schedule_all (self : LessLeakyTests.self_t) (sched : list (Z * callable))
    (w : world) : world :=
  fold_left (fun w' p => LessLeakyTests._single_shot self (fst p) (snd p) w') sched w.

(** [scheduled_by self sched e]: the test that registers the timers of
    [sched] through its harness schedules the entry [e].  Either the body of
    the test registers it, or a callback the test scheduled registers it when
    it is called.  The time at which [e] is due is left open. *)
Inductive scheduled_by (self : LessLeakyTests.self_t) (sched : list (Z * callable))
    : entry -> Prop :=
| scheduled_by_body w e :
    In e (agenda (schedule_all self sched (set_agenda [] w))) ->
    scheduled_by self sched e
| scheduled_by_callback e x :
    scheduled_by self sched e -> spawns (slot e) x -> scheduled_by self sched x.

(** [subsequent o w w']: [w'] comes after [w] through what the later tests of
    the process do.  A later test has an object of its own: it makes its
    [setUp], starts timers that are not parented to [o] and whose callables
    do not go through the harness of [o], runs the loop, and releases its
    object. *)
Inductive subsequent (o : QObject) (w : world) : world -> Prop :=
| subsequent_refl : subsequent o w w
| subsequent_setUp w' self' w'' :
    subsequent o w w' -> LessLeakyTests.setUp w' = Some (self', w'') ->
    subsequent o w w''
| subsequent_timer w' parent msec f :
    subsequent o w w' -> parent <> Some o -> mentions o f = false ->
    subsequent o w (QTimer_start parent msec f w')
| subsequent_exec w' :
    subsequent o w w' -> subsequent o w (final (exec_ w'))
| subsequent_release w' self' w'' :
    subsequent o w w' -> LessLeakyTests.release_qt_resources self' w' = Some w'' ->
    subsequent o w w''.


(** ** Sample worlds *)

(** A process that has run nothing yet, and the scenario of [test_one] in it. *)
Definition sample_process : world := fresh_process (fun _ => 42).

Definition sample_self : LeakyTests.self_t := LeakyTests.mkSelf (Some 0%nat).

Definition sample_scenario : world :=
  LeakyTests._fail_if_timeout sample_self
    (QTimer_start None 0 (LeakyTests.do_task sample_self) sample_process).


(** The less leaky case after [setUp] in the fresh process, and the two timers
    [test_one] registers through its harness. *)
Definition sample_less_leaky_self : LessLeakyTests.self_t :=
  LessLeakyTests.mkSelf (Some 0%nat) 1%nat.

Definition sample_after_setUp : world :=
  set_next_id 2%nat (set_instance (Some 0%nat) sample_process).

Definition sample_schedule : list (Z * callable) :=
  [(0, LessLeakyTests.do_task sample_less_leaky_self); (5000, qapp_exit (-1))].

(** ** The cases as unittest runs them *)

(** The tests of [LeakyTests] run one after the other in one process: each
    gets a fresh instance and [setUp], and starts in the world the previous
    one left. *)
Fixpoint run_leaky_suite
    (tests : list (LeakyTests.self_t -> world -> verdict * run)) (w : world)
    : option (list verdict * world) :=
  match tests with
  | [] => Some ([], w)
  | t :: ts =>
      match LeakyTests.run_case t w with
      | Some (v, r) =>
          match run_leaky_suite ts (final r) with
          | Some (vs, w') => Some (v :: vs, w')
          | None => None
          end
      | None => None
      end
  end.

(** The same for [LessLeakyTests], whose cleanup runs after each test. *)
Fixpoint run_less_leaky_suite
    (tests : list (LessLeakyTests.self_t -> world -> verdict * run)) (w : world)
    : option (list verdict * world) :=
  match tests with
  | [] => Some ([], w)
  | t :: ts =>
      match LessLeakyTests.run_case t w with
      | Some (v, r, Some w1) =>
          match run_less_leaky_suite ts w1 with
          | Some (vs, w') => Some (v :: vs, w')
          | None => None
          end
      | _ => None
      end
  end.

(** [may_stop fq f]: calling [f], or something it schedules, may ask the loop
    to stop; [fq] tells whether the worker's [finished] is wired to [quit]. *)
Fixpoint may_stop (fq : bool) (f : callable) : bool :=
  match f with
  | qapp_quit => true
  | qapp_exit _ => true
  | QTimer_singleShot _ g => may_stop fq g
  | single_shot _ _ g => may_stop fq g
  | seq g h => may_stop fq g || may_stop fq h
  | Worker_start => fq
  | Worker_finished => fq
  | _ => false
  end.

Definition no_stop_pending (w : world) : Prop :=
  Forall (fun e => may_stop (finished_quit w) (slot e) = false) (agenda w).
(** * Properties *)

(** ** The next entry *)

Lemma weight_app (l1 l2 : list entry) :
  weight (l1 ++ l2) = (weight l1 + weight l2)%nat.
Proof.
  induction l1 as [|e l1 IH]; simpl; [reflexivity|].
  rewrite IH. lia.
Qed.

Lemma take_next_none (l : list entry) : take_next l = None -> l = [].
Proof.
  destruct l as [|e l]; simpl; [reflexivity|].
  destruct (take_next l) as [[m r]|]; [|discriminate].
  destruct (due e <=? due m); discriminate.
Qed.

Lemma take_next_weight (l : list entry) (m : entry) (r : list entry) :
  take_next l = Some (m, r) -> weight l = (cost (slot m) + weight r)%nat.
Proof.
  revert m r. induction l as [|e l IH]; simpl; intros m r H; [discriminate|].
  destruct (take_next l) as [[m' r']|] eqn:E.
  - specialize (IH _ _ eq_refl).
    destruct (due e <=? due m'); inversion H; subst; simpl; lia.
  - apply take_next_none in E. subst l. inversion H; subst. reflexivity.
Qed.

Lemma take_next_split (l : list entry) (m : entry) (r : list entry) :
  take_next l = Some (m, r) -> forall x, In x l <-> x = m \/ In x r.
Proof.
  revert m r. induction l as [|e l IH]; simpl; intros m r H x; [discriminate|].
  destruct (take_next l) as [[m' r']|] eqn:E.
  - specialize (IH _ _ eq_refl x).
    destruct (due e <=? due m'); inversion H; subst; simpl.
    + intuition congruence.
    + intuition congruence.
  - apply take_next_none in E. subst l. inversion H; subst. simpl.
    intuition congruence.
Qed.


(** An entry that is due no later than everything registered after it is the
    next one. *)
Lemma take_next_head (e : entry) (l : list entry) :
  Forall (fun x => due e <= due x) l -> take_next (e :: l) = Some (e, l).
Proof.
  intros H. simpl. destruct (take_next l) as [[m r]|] eqn:E.
  - assert (Hm : In m l) by (apply (take_next_split _ _ _ E); left; reflexivity).
    rewrite Forall_forall in H. specialize (H _ Hm).
    apply Z.leb_le in H. rewrite H. reflexivity.
  - apply take_next_none in E. subst. reflexivity.
Qed.

(** An entry that comes strictly after a later-registered one lets that one
    pass. *)
Lemma take_next_skip (e : entry) (l : list entry) (m : entry) (r : list entry) :
  take_next l = Some (m, r) -> due m < due e ->
  take_next (e :: l) = Some (m, e :: r).
Proof.
  intros E H. simpl. rewrite E.
  apply Z.leb_gt in H. rewrite H. reflexivity.
Qed.

(** ** What a call changes *)

Lemma cost_pos (f : callable) : (1 <= cost f)%nat.
Proof. destruct f; simpl; lia. Qed.

Lemma Worker_run_iter_length (n : nat) (t : Z) (k : nat) (rnd : nat -> Z) :
  length (Worker_run_iter n t k rnd) = n.
Proof.
  revert t k. induction n as [|n IH]; intros t k; simpl; [reflexivity|].
  rewrite IH. reflexivity.
Qed.

Lemma weight_deliveries (em : list (Z * Z)) : weight (deliveries em) = length em.
Proof.
  induction em as [|x em IH]; simpl; [reflexivity|]. rewrite IH. reflexivity.
Qed.

Lemma call_frame_ok (f : callable) :
  forall w w', call f w = Some w' -> call_frame f w w'.
Proof.
  induction f as [ | c | v | ms g IHg | o ms g IHg | g IHg h IHh | | v | ];
    intros w w' H; simpl in H.
  - inversion H; subst. unfold QCoreApplication_exit.
    destruct (in_exec w); constructor; simpl; try reflexivity;
      exists []; rewrite app_nil_r; simpl; split; (reflexivity || lia).
  - inversion H; subst. unfold QCoreApplication_exit.
    destruct (in_exec w); constructor; simpl; try reflexivity;
      exists []; rewrite app_nil_r; simpl; split; (reflexivity || lia).
  - destruct v; inversion H; subst. constructor; try reflexivity.
    exists []; rewrite app_nil_r; simpl; split; (reflexivity || lia).
  - inversion H; subst. unfold QTimer_start.
    destruct (ms <? 0); constructor; simpl; try reflexivity.
    + exists []; rewrite app_nil_r; simpl; split; [reflexivity|lia].
    + eexists; split; [reflexivity|simpl; lia].
  - inversion H; subst. unfold QTimer_start.
    destruct (ms <? 0); constructor; simpl; try reflexivity.
    + exists []; rewrite app_nil_r; simpl; split; [reflexivity|lia].
    + eexists; split; [reflexivity|simpl; lia].
  - destruct (call g w) as [w1|] eqn:E; [|discriminate].
    destruct (IHg _ _ E) as [A1 A2 A3 A4 A5 A6 [ad1 [B1 B2]]].
    destruct (IHh _ _ H) as [C1 C2 C3 C4 C5 C6 [ad2 [D1 D2]]].
    constructor; try congruence.
    exists (ad1 ++ ad2). split.
    + rewrite D1, B1, app_assoc. reflexivity.
    + rewrite weight_app. simpl. lia.
  - inversion H; subst. unfold QThread_start.
    destruct (worker_running w); constructor; try reflexivity.
    + exists []; rewrite app_nil_r; simpl; split; [reflexivity|lia].
    + cbn [agenda set_worker_running set_draws set_agenda].
      eexists; split; [reflexivity|].
      rewrite weight_app, weight_deliveries. unfold Worker_run.
      rewrite Worker_run_iter_length. cbn [weight fold_right slot cost]. lia.
  - inversion H; subst.
    destruct (patched w); constructor; simpl; try reflexivity;
      exists []; rewrite app_nil_r; simpl; split; (reflexivity || lia).
  - inversion H; subst. unfold postEvent.
    destruct (finished_quit w); constructor; simpl; try reflexivity.
    + eexists; split; [reflexivity|simpl; lia].
    + exists []; rewrite app_nil_r; simpl; split; [reflexivity|lia].
Qed.

(** ** The loop always comes to a result *)

Lemma exec_loop_enough_fuel (fuel : nat) :
  forall w, (weight (agenda w) < fuel)%nat ->
            outcome (exec_loop fuel w) <> OutOfFuel.
Proof.
  induction fuel as [|k IH]; intros w Hw; [lia|].
  simpl. destruct (take_next (agenda w)) as [[e rest]|] eqn:E; simpl; [|discriminate].
  destruct (call (slot e) _) as [w2|] eqn:C; simpl; [|discriminate].
  destruct (exit_req w2); simpl; [discriminate|].
  apply IH.
  destruct (call_frame_ok _ _ _ C) as [_ _ _ _ _ _ [ad [A B]]].
  rewrite A, weight_app. simpl.
  apply take_next_weight in E. lia.
Qed.

Lemma exec_never_out_of_fuel (w : world) : outcome (exec_ w) <> OutOfFuel.
Proof. unfold exec_. apply exec_loop_enough_fuel. simpl. lia. Qed.

(** More fuel than needed changes nothing. *)
Lemma exec_loop_fuel_irrelevant (fuel : nat) :
  forall w fuel', (weight (agenda w) < fuel)%nat -> (weight (agenda w) < fuel')%nat ->
                  exec_loop fuel' w = exec_loop fuel w.
Proof.
  induction fuel as [|k IH]; intros w fuel' Hw Hw'; [lia|].
  destruct fuel' as [|k']; [lia|].
  simpl. destruct (take_next (agenda w)) as [[e rest]|] eqn:E; [|reflexivity].
  destruct (call (slot e) _) as [w2|] eqn:C; [|reflexivity].
  destruct (exit_req w2); [reflexivity|].
  assert (Hlt : (weight (agenda w2) < weight (agenda w))%nat).
  { destruct (call_frame_ok _ _ _ C) as [_ _ _ _ _ _ [ad [A B]]].
    rewrite A, weight_app. simpl. apply take_next_weight in E. lia. }
  rewrite (IH w2 k'); [reflexivity|lia|lia].
Qed.

Lemma deliveries_spawned (em : list (Z * Z)) :
  Forall (spawns Worker_start) (deliveries em).
Proof.
  induction em as [|x em IH]; simpl; constructor; [constructor|assumption].
Qed.

Lemma call_spawns (f : callable) :
  forall w w', call f w = Some w' ->
               exists added, agenda w' = agenda w ++ added /\ Forall (spawns f) added.
Proof.
  induction f as [ | c | v | ms g IHg | o ms g IHg | g IHg h IHh | | v | ];
    intros w w' H; simpl in H.
  - inversion H; subst. unfold QCoreApplication_exit.
    exists []. rewrite app_nil_r. destruct (in_exec w); split; (reflexivity || constructor).
  - inversion H; subst. unfold QCoreApplication_exit.
    exists []. rewrite app_nil_r. destruct (in_exec w); split; (reflexivity || constructor).
  - destruct v; inversion H; subst.
    exists []. rewrite app_nil_r. split; (reflexivity || constructor).
  - inversion H; subst. unfold QTimer_start. destruct (ms <? 0).
    + exists []. rewrite app_nil_r. split; (reflexivity || constructor).
    + eexists. split; [reflexivity|]. repeat constructor.
  - inversion H; subst. unfold QTimer_start. destruct (ms <? 0).
    + exists []. rewrite app_nil_r. split; (reflexivity || constructor).
    + eexists. split; [reflexivity|]. repeat constructor.
  - destruct (call g w) as [w1|] eqn:E; [|discriminate].
    destruct (IHg _ _ E) as [ad1 [B1 B2]].
    destruct (IHh _ _ H) as [ad2 [D1 D2]].
    exists (ad1 ++ ad2). split.
    + rewrite D1, B1, app_assoc. reflexivity.
    + apply Forall_app. split.
      * eapply Forall_impl; [|exact B2]. intros a Ha. apply spawns_seq_l. exact Ha.
      * eapply Forall_impl; [|exact D2]. intros a Ha. apply spawns_seq_r. exact Ha.
  - inversion H; subst. unfold QThread_start. destruct (worker_running w).
    + exists []. rewrite app_nil_r. split; (reflexivity || constructor).
    + eexists. split; [reflexivity|].
      apply Forall_app. split; [apply deliveries_spawned|].
      repeat constructor.
  - inversion H; subst.
    exists []. rewrite app_nil_r. destruct (patched w); split; (reflexivity || constructor).
  - inversion H; subst. unfold postEvent. destruct (finished_quit w).
    + eexists. split; [reflexivity|]. repeat constructor.
    + exists []. rewrite app_nil_r. split; (reflexivity || constructor).
Qed.

(** ** Callables that cannot raise *)

Lemma raises_nothing_call (f : callable) :
  raises_nothing f = true -> forall w, exists w', call f w = Some w'.
Proof.
  induction f as [ | c | v | ms g IHg | o ms g IHg | g IHg h IHh | | v | ];
    simpl; intros H w; try (eexists; reflexivity).
  - destruct v; [eexists; reflexivity|discriminate].
  - apply andb_true_iff in H. destruct H as [Hg Hh].
    destruct (IHg Hg w) as [w1 E1]. rewrite E1. apply IHh. exact Hh.
Qed.

Lemma raises_nothing_spawns (f : callable) (e : entry) :
  spawns f e -> raises_nothing f = true -> raises_nothing (slot e) = true.
Proof.
  induction 1; simpl; intros Hf; try assumption; try reflexivity.
  - apply andb_true_iff in Hf. tauto.
  - apply andb_true_iff in Hf. tauto.
Qed.

(** ** A pending stop request bounds the run *)

Lemma call_stop_request (f : callable) (c : Z) (w : world) :
  stops f = Some c -> in_exec w = true ->
  exists w', call f w = Some w' /\ exit_req w' = Some c.
Proof.
  intros Hs Hin. destruct f; simpl in Hs; try discriminate; inversion Hs; subst;
    simpl; unfold QCoreApplication_exit; rewrite Hin;
    eexists; split; reflexivity.
Qed.





(** ** The first stop request to fire decides the exit code *)

Lemma exec_loop_stop_is_last (fuel : nat) :
  forall w pre e post c,
    in_exec w = true ->
    fired (exec_loop fuel w) = pre ++ e :: post ->
    stops (slot e) = Some c ->
    outcome (exec_loop fuel w) = Returned c /\ post = [].
Proof.
  induction fuel as [|k IH]; intros w pre e post c Hin Hf Hs; simpl in Hf.
  - destruct pre; discriminate.
  - simpl. destruct (take_next (agenda w)) as [[m rest]|] eqn:E;
      [|destruct pre; discriminate].
    set (w1 := set_now (Z.max (now w) (due m)) (set_agenda rest w)) in *.
    destruct (call (slot m) w1) as [w2|] eqn:C.
    + destruct (exit_req w2) as [c'|] eqn:X; simpl in Hf |- *.
      * destruct pre as [|p pre]; simpl in Hf.
        -- inversion Hf; subst.
           destruct (call_stop_request _ _ w1 Hs) as [w2' [C' X']]; [exact Hin|].
           rewrite C in C'. inversion C'; subst. split; [congruence|reflexivity].
        -- inversion Hf. destruct pre; discriminate.
      * destruct pre as [|p pre]; simpl in Hf.
        -- inversion Hf; subst.
           destruct (call_stop_request _ _ w1 Hs) as [w2' [C' X']]; [exact Hin|].
           rewrite C in C'. inversion C'; subst. congruence.
        -- inversion Hf; subst. apply (IH w2 pre e post c); try assumption.
           destruct (call_frame_ok _ _ _ C) as [_ F2 _ _ _ _ _].
           rewrite F2. exact Hin.
    + simpl in Hf. destruct pre as [|p pre]; simpl in Hf.
      * inversion Hf; subst.
        destruct (call_stop_request _ _ w1 Hs) as [w2' [C' X']]; [exact Hin|].
        rewrite C in C'. discriminate.
      * inversion Hf. destruct pre; discriminate.
Qed.

Lemma exec_stop_is_last (w : world) (pre : list entry) (e : entry)
    (post : list entry) (c : Z) :
  fired (exec_ w) = pre ++ e :: post -> stops (slot e) = Some c ->
  outcome (exec_ w) = Returned c /\ post = [].
Proof.
  unfold exec_. intros Hf Hs.
  eapply exec_loop_stop_is_last; [|exact Hf|exact Hs]. reflexivity.
Qed.

(** ** The application outlives the runs *)

Lemma exec_loop_instance (fuel : nat) :
  forall w, instance (final (exec_loop fuel w)) = instance w.
Proof.
  induction fuel as [|k IH]; intros w; simpl; [reflexivity|].
  destruct (take_next (agenda w)) as [[e rest]|]; simpl; [|reflexivity].
  destruct (call (slot e) _) as [w2|] eqn:C; simpl; [|reflexivity].
  destruct (call_frame_ok _ _ _ C) as [_ _ F3 _ _ _ _].
  destruct (exit_req w2); simpl.
  - rewrite F3. reflexivity.
  - rewrite IH, F3. reflexivity.
Qed.

Lemma exec_instance (w : world) : instance (final (exec_ w)) = instance w.
Proof. unfold exec_. rewrite exec_loop_instance. reflexivity. Qed.

(** ** Stepping the loop by hand *)

Lemma exec_loop_returns (k : nat) (w : world) (e : entry) (rest : list entry)
    (w2 : world) (c : Z) :
  take_next (agenda w) = Some (e, rest) ->
  call (slot e) (set_now (Z.max (now w) (due e)) (set_agenda rest w)) = Some w2 ->
  exit_req w2 = Some c ->
  exec_loop (S k) w = mkRun (Returned c) (set_in_exec false w2) [e].
Proof. intros E C X. simpl. rewrite E, C, X. reflexivity. Qed.

Lemma exec_loop_continues (k : nat) (w : world) (e : entry) (rest : list entry)
    (w2 : world) (r : run) :
  take_next (agenda w) = Some (e, rest) ->
  call (slot e) (set_now (Z.max (now w) (due e)) (set_agenda rest w)) = Some w2 ->
  exit_req w2 = None ->
  exec_loop k w2 = r ->
  exec_loop (S k) w = mkRun (outcome r) (final r) (e :: fired r).
Proof. intros E C X R. simpl. rewrite E, C, X, R. reflexivity. Qed.

(** The same step, read through the projections of the run. *)
Lemma exec_loop_continues_proj (k : nat) (w : world) (e : entry) (rest : list entry)
    (w2 : world) :
  take_next (agenda w) = Some (e, rest) ->
  call (slot e) (set_now (Z.max (now w) (due e)) (set_agenda rest w)) = Some w2 ->
  exit_req w2 = None ->
  outcome (exec_loop (S k) w) = outcome (exec_loop k w2) /\
  final (exec_loop (S k) w) = final (exec_loop k w2) /\
  fired (exec_loop (S k) w) = e :: fired (exec_loop k w2).
Proof.
  intros E C X. rewrite (exec_loop_continues k w e rest w2 _ E C X eq_refl).
  repeat split.
Qed.

Ltac zcmp :=
  repeat match goal with
  | |- context [Z.max ?a ?b] =>
      first [ rewrite (Z.max_l a b) by lia | rewrite (Z.max_r a b) by lia ]
  | |- context [?a <=? ?b] =>
      first [ replace (a <=? b) with true by (symmetry; apply Z.leb_le; lia)
            | replace (a <=? b) with false by (symmetry; apply Z.leb_gt; lia) ]
  | |- context [?a <? ?b] =>
      first [ replace (a <? b) with true by (symmetry; apply Z.ltb_lt; lia)
            | replace (a <? b) with false by (symmetry; apply Z.ltb_ge; lia) ]
  | |- context [?a =? ?b] =>
      first [ replace (a =? b) with true by (symmetry; apply Z.eqb_eq; lia)
            | replace (a =? b) with false by (symmetry; apply Z.eqb_neq; lia) ]
  end.

Ltac wcbn :=
  cbn [Nat.add call app weight cost fold_right map length
       QCoreApplication_instance QCoreApplication_new QObject_new
       set_now set_agenda set_instance set_next_id set_deferred_delete set_in_exec
       set_exit_req set_worker_running set_finished_quit set_patched set_mock_calls
       set_stdout set_draws
       now agenda instance next_id deferred_delete in_exec exit_req worker_running
       finished_quit patched mock_calls stdout draws rand
       due owner slot outcome final fired fst snd].

(** For goals about worlds, entries and calls (the loop itself is stepped by
    the two lemmas above). *)
Ltac wsimpl :=
  wcbn;
  repeat (progress (unfold QTimer_start, QCoreApplication_exit, postEvent;
                    wcbn; zcmp; wcbn)).

Ltac solve_take_next :=
  first [ apply take_next_head; repeat constructor; cbn [due]; lia
        | eapply take_next_skip; [solve_take_next | cbn [due]; lia] ].

Ltac loop_continue :=
  eapply exec_loop_continues;
  [ wsimpl; solve_take_next | wsimpl; reflexivity | wsimpl; reflexivity | ].

Ltac loop_return :=
  eapply exec_loop_returns;
  [ wsimpl; solve_take_next | wsimpl; reflexivity | wsimpl; reflexivity ].

(** ** The timer scenarios, from any world in which nothing is pending *)

Lemma leaky_scenario_run (a : QObject) (w : world) :
  agenda w = [] ->
  let self := LeakyTests.mkSelf (Some a) in
  let r := exec_ (LeakyTests._fail_if_timeout self
                    (QTimer_start None 0 (LeakyTests.do_task self) w)) in
  outcome r = Returned 0 /\ now (final r) = now w + 3000 /\
  agenda (final r) = [mkEntry (now w + 5000) None (qapp_exit (-1))] /\
  fired r = [mkEntry (now w) None (LeakyTests.do_task self);
             mkEntry (now w + 3000) None qapp_quit].
Proof.
  destruct w as [n ag inst nid dd ie er wr fq pa mc so dr rnd]. simpl agenda.
  intros -> self r.
  eassert (E : r = _).
  { unfold r, exec_, LeakyTests._fail_if_timeout, LeakyTests.do_task, self.
    cbn [LeakyTests.qapp].
    loop_continue. loop_return. }
  rewrite E. wsimpl. repeat split; try reflexivity.
  f_equal. f_equal. lia.
Qed.

Lemma leaky_guard_only_run (self : LeakyTests.self_t) (w : world) :
  agenda w = [] ->
  let r := exec_ (LeakyTests._fail_if_timeout self w) in
  outcome r = Returned (-1) /\ now (final r) = now w + 5000 /\
  fired r = [mkEntry (now w + 5000) None (qapp_exit (-1))] /\
  agenda (final r) = [].
Proof.
  destruct w as [n ag inst nid dd ie er wr fq pa mc so dr rnd]. simpl agenda.
  intros -> r.
  eassert (E : r = _).
  { unfold r, exec_, LeakyTests._fail_if_timeout. loop_return. }
  rewrite E. wsimpl. repeat split; reflexivity.
Qed.

Lemma less_leaky_scenario_run (self : LessLeakyTests.self_t) (w : world) :
  agenda w = [] ->
  let o := LessLeakyTests.test_qobj self in
  let r := exec_ (LessLeakyTests._fail_if_timeout self
                    (LessLeakyTests._single_shot self 0 (LessLeakyTests.do_task self) w)) in
  outcome r = Returned 0 /\ now (final r) = now w + 3000 /\
  agenda (final r) = [mkEntry (now w + 5000) (Some o) (qapp_exit (-1))] /\
  fired r = [mkEntry (now w) (Some o) (LessLeakyTests.do_task self);
             mkEntry (now w + 3000) (Some o) qapp_quit] /\
  deferred_delete (final r) = deferred_delete w /\
  instance (final r) = instance w /\ next_id (final r) = next_id w.
Proof.
  destruct w as [n ag inst nid dd ie er wr fq pa mc so dr rnd]. simpl agenda.
  intros -> o r. destruct self as [a o'].
  eassert (E : r = _).
  { unfold r, exec_, LessLeakyTests._fail_if_timeout, LessLeakyTests._single_shot,
      LessLeakyTests.do_task.
    cbn [LessLeakyTests.test_qobj].
    loop_continue. loop_return. }
  rewrite E. wsimpl. repeat split; try reflexivity.
  f_equal. f_equal. lia.
Qed.

Lemma less_leaky_guard_only_run (self : LessLeakyTests.self_t) (w : world) :
  agenda w = [] ->
  let r := exec_ (LessLeakyTests._fail_if_timeout self w) in
  outcome r = Returned (-1) /\ now (final r) = now w + 5000.
Proof.
  destruct w as [n ag inst nid dd ie er wr fq pa mc so dr rnd]. simpl agenda.
  intros -> r. destruct self as [a o'].
  eassert (E : r = _).
  { unfold r, exec_, LessLeakyTests._fail_if_timeout, LessLeakyTests._single_shot.
    cbn [LessLeakyTests.test_qobj]. loop_return. }
  rewrite E. wsimpl. repeat split; reflexivity.
Qed.

(** [setUp] never fails: the constructor is only reached when no application
    exists. *)
Lemma leaky_setUp_total (w : world) :
  exists a w1, LeakyTests.setUp w = Some (LeakyTests.mkSelf (Some a), w1) /\
               agenda w1 = agenda w /\ now w1 = now w /\ instance w1 = Some a /\
               (forall a0, instance w = Some a0 -> a = a0 /\ w1 = w).
Proof.
  unfold LeakyTests.setUp, QCoreApplication_instance, QCoreApplication_new.
  destruct (instance w) as [a|] eqn:E.
  - exists a, w. repeat split; try reflexivity; try assumption; congruence.
  - eexists _, _. repeat split; try reflexivity; discriminate.
Qed.

Lemma less_leaky_setUp_total (w : world) :
  exists a o w1, LessLeakyTests.setUp w = Some (LessLeakyTests.mkSelf (Some a) o, w1) /\
                 agenda w1 = agenda w /\ now w1 = now w /\ instance w1 = Some a /\
                 (next_id w <= o < next_id w1)%nat /\
                 (forall a0, instance w = Some a0 -> a = a0).
Proof.
  unfold LessLeakyTests.setUp, QCoreApplication_instance, QCoreApplication_new, QObject_new.
  destruct (instance w) as [a|] eqn:E.
  - eexists a, _, _. repeat split; try reflexivity; try assumption; simpl; try lia; congruence.
  - eexists _, _, _. repeat split; try reflexivity; simpl; try lia; discriminate.
Qed.

Lemma leaky_test_one_quiet (w : world) :
  agenda w = [] ->
  exists r, LeakyTests.run_case LeakyTests.test_one w = Some (Passed, r) /\
            outcome r = Returned 0 /\ now (final r) = now w + 3000 /\
            agenda (final r) = [mkEntry (now w + 5000) None (qapp_exit (-1))].
Proof.
  intros Hq. unfold LeakyTests.run_case.
  destruct (leaky_setUp_total w) as [a [w1 [S1 [A1 [N1 _]]]]]. rewrite S1.
  rewrite <- A1 in Hq.
  destruct (leaky_scenario_run a w1 Hq) as [O [N [A F]]].
  eexists. split; [|split; [exact O|split; [rewrite N, N1; reflexivity|rewrite A, N1; reflexivity]]].
  unfold LeakyTests.test_one, assertEqual_exec. cbv zeta. rewrite O. reflexivity.
Qed.

Lemma leaky_test_fail_if_timeout_quiet (w : world) :
  agenda w = [] ->
  exists r, LeakyTests.run_case LeakyTests.test_fail_if_timeout w = Some (Passed, r) /\
            outcome r = Returned (-1) /\ now (final r) = now w + 5000 /\
            fired r = [mkEntry (now w + 5000) None (qapp_exit (-1))].
Proof.
  intros Hq. unfold LeakyTests.run_case.
  destruct (leaky_setUp_total w) as [a [w1 [S1 [A1 [N1 _]]]]]. rewrite S1.
  rewrite <- A1 in Hq.
  destruct (leaky_guard_only_run (LeakyTests.mkSelf (Some a)) w1 Hq) as [O [N [F A]]].
  eexists. split; [|split; [exact O|split; [rewrite N, N1; reflexivity|rewrite F, N1; reflexivity]]].
  unfold LeakyTests.test_fail_if_timeout, assertEqual_exec. cbv zeta. rewrite O. reflexivity.
Qed.

(** ** The cleanup of the less leaky case *)

Lemma doomed_last (dd : list QObject) (o : QObject) (e : entry) :
  owned_by o e = true -> doomed (dd ++ [o]) e = true.
Proof.
  intros H. unfold doomed. rewrite existsb_app. simpl. rewrite H.
  rewrite orb_true_r. reflexivity.
Qed.

Lemma release_single_owned (self : LessLeakyTests.self_t) (w : world) (e : entry) :
  agenda w = [e] -> owned_by (LessLeakyTests.test_qobj self) e = true ->
  exists w', LessLeakyTests.release_qt_resources self w = Some w' /\
             agenda w' = [] /\ now w' = now w /\ instance w' = instance w /\
             next_id w' = next_id w /\ deferred_delete w' = [].
Proof.
  intros Ha Ho.
  unfold LessLeakyTests.release_qt_resources, sendPostedEvents_DeferredDelete,
    deleteLater, processEvents.
  cbn [agenda deferred_delete set_agenda set_deferred_delete].
  rewrite Ha. cbn [filter]. rewrite (doomed_last _ _ _ Ho). cbn [negb weight fold_right].
  cbn [processEvents_loop agenda set_agenda set_deferred_delete take_next].
  eexists. repeat split; reflexivity.
Qed.

Lemma less_leaky_case_quiet (w : world) :
  agenda w = [] ->
  exists r w',
    LessLeakyTests.run_case LessLeakyTests.test_one w = Some (Passed, r, Some w') /\
    outcome r = Returned 0 /\ now (final r) = now w + 3000 /\
    (exists g, agenda (final r) = [g] /\ slot g = qapp_exit (-1) /\ due g = now w + 5000) /\
    (forall e, In e (fired r) -> slot e <> qapp_exit (-1)) /\
    agenda w' = [] /\ now w' = now w + 3000.
Proof.
  intros Hq. unfold LessLeakyTests.run_case.
  destruct (less_leaky_setUp_total w) as [a [o [w1 [S1 [A1 [N1 _]]]]]]. rewrite S1.
  rewrite <- A1 in Hq.
  set (self := LessLeakyTests.mkSelf (Some a) o).
  destruct (less_leaky_scenario_run self w1 Hq) as [O [N [A [F _]]]].
  unfold LessLeakyTests.test_one, assertEqual_exec. cbv zeta. cbn [snd].
  rewrite O. cbn [Z.eqb].
  destruct (release_single_owned self _ _ A) as [w' [R [A' [N' _]]]].
  { unfold owned_by. simpl. apply Nat.eqb_refl. }
  rewrite R. eexists _, w'. split; [reflexivity|].
  split; [exact O|]. split; [rewrite N, N1; reflexivity|]. split.
  { eexists. split; [exact A|]. split; [reflexivity|]. simpl. rewrite N1. reflexivity. }
  split.
  { intros e He. rewrite F in He. destruct He as [<-|[<-|[]]]; simpl; discriminate. }
  split; [exact A'|]. rewrite N', N, N1. reflexivity.
Qed.

Lemma less_leaky_case_two_quiet (w : world) :
  agenda w = [] ->
  exists r w',
    LessLeakyTests.run_case LessLeakyTests.test_two w = Some (Passed, r, Some w') /\
    outcome r = Returned 0 /\ now (final r) = now w + 3000 /\
    (exists g, agenda (final r) = [g] /\ slot g = qapp_exit (-1) /\ due g = now w + 5000) /\
    (forall e, In e (fired r) -> slot e <> qapp_exit (-1)) /\
    agenda w' = [] /\ now w' = now w + 3000.
Proof. exact (less_leaky_case_quiet w). Qed.

(** ** The controller and its worker *)

Lemma Worker_run_iter_times (n : nat) :
  forall t k rnd, Forall (fun y => t + 100 <= fst y <= t + 100 * Z.of_nat n)
                         (Worker_run_iter n t k rnd).
Proof.
  induction n as [|n IH]; intros t k rnd; [constructor|].
  cbn [Worker_run_iter]. constructor.
  - cbn [fst]. lia.
  - eapply Forall_impl; [|apply IH]. cbn beta. intros y Hy. lia.
Qed.

Lemma Worker_run_iter_ascending (n : nat) :
  forall t k rnd, ascending (Worker_run_iter n t k rnd) (t + 100 * Z.of_nat n).
Proof.
  induction n as [|n IH]; intros t k rnd; [exact I|].
  cbn [Worker_run_iter ascending fst]. split; [|split].
  - eapply Forall_impl; [|apply Worker_run_iter_times]. cbn beta. intros y Hy. lia.
  - lia.
  - replace (t + 100 * Z.of_nat (S n)) with (t + 100 + 100 * Z.of_nat n) by lia.
    apply IH.
Qed.

Lemma deliveries_due (em : list (Z * Z)) (t : Z) :
  Forall (fun y => t <= fst y) em -> Forall (fun x => t <= due x) (deliveries em).
Proof.
  induction 1; simpl; constructor; assumption.
Qed.

(** With the mock in place and [finished] wired to [quit], the loop delivers
    every pending emission, then the end of the thread, then the quit it
    posts, all before a later stop request. *)
Lemma drain_deliveries (em : list (Z * Z)) :
  forall fuel w g c tend,
    agenda w = g :: deliveries em ++ [mkEntry tend None Worker_finished] ->
    slot g = qapp_exit c ->
    ascending em tend -> tend < due g -> now w < due g ->
    in_exec w = true -> exit_req w = None ->
    patched w = true -> finished_quit w = true ->
    (length em + 3 <= fuel)%nat ->
    outcome (exec_loop fuel w) = Returned 0 /\
    mock_calls (final (exec_loop fuel w)) = mock_calls w ++ map snd em /\
    now (final (exec_loop fuel w)) = Z.max (now w) tend /\
    worker_running (final (exec_loop fuel w)) = false.
Proof.
  induction em as [|[t v] em IH];
    intros fuel w g c tend Ha Hg Hasc Htend Hnow Hin Hx Hp Hq Hfuel;
    destruct w as [n ag inst nid dd ie er wr fq pa mc so dr rnd];
    cbn [agenda now in_exec exit_req patched finished_quit mock_calls] in *; subst;
    destruct g as [gd go gs]; cbn [slot due] in *; subst gs.
  - destruct fuel as [|[|k]]; [simpl in Hfuel; lia|simpl in Hfuel; lia|].
    cbn [deliveries map app].
    match goal with
    | |- context [exec_loop ?f ?W] => eassert (E : exec_loop f W = _)
    end.
    { loop_continue. loop_return. }
    rewrite E. wsimpl. rewrite app_nil_r. repeat split; reflexivity.
  - destruct fuel as [|k]; [simpl in Hfuel; lia|].
    cbn [ascending fst] in Hasc. destruct Hasc as [Hle [Ht Hasc]].
    cbn [deliveries map app fst snd].
    match goal with
    | |- context [exec_loop (S k) ?W] =>
        edestruct (exec_loop_continues_proj k W) as [Eo [Ef _]];
        [ cbn [agenda]; eapply take_next_skip;
          [ apply take_next_head; apply Forall_app; split;
            [ apply deliveries_due; exact Hle | repeat constructor; cbn [due]; lia ]
          | cbn [due]; lia ]
        | wsimpl; reflexivity
        | wsimpl; reflexivity
        | rewrite Eo, Ef; clear Eo Ef ]
    end.
    match goal with
    | |- context [exec_loop k ?w2] =>
        destruct (IH k w2 (mkEntry gd go (qapp_exit c)) c tend) as [O [M [N W]]]
    end; try reflexivity; try assumption.
    + wcbn. lia.
    + simpl in Hfuel |- *. lia.
    + rewrite O, M, N, W. wcbn.
      rewrite <- app_assoc. repeat split; try reflexivity. lia.
Qed.

Lemma Worker_run_length (t : Z) (k : nat) (rnd : nat -> Z) :
  length (Worker_run t k rnd) = 20%nat.
Proof. apply Worker_run_iter_length. Qed.

(** The run of the controller test once its pieces are in place: a stop
    request [g] and the posted start of the worker. *)
Lemma worker_scenario_loop (w : world) (g : entry) (c : Z) :
  agenda w = [g; mkEntry (now w) None Worker_start] ->
  slot g = qapp_exit c -> now w + 2000 < due g ->
  worker_running w = false -> patched w = true -> finished_quit w = true ->
  outcome (exec_ w) = Returned 0 /\
  mock_calls (final (exec_ w)) =
    mock_calls w ++ map snd (Worker_run (now w) (draws w) (rand w)) /\
  now (final (exec_ w)) = now w + 2000 /\
  worker_running (final (exec_ w)) = false.
Proof.
  destruct w as [n ag inst nid dd ie er wr fq pa mc so dr rnd].
  cbn [agenda now worker_running patched finished_quit mock_calls draws rand].
  intros -> Hg Hdue -> -> ->.
  destruct g as [gd go gs]; cbn [slot due] in *; subst gs.
  unfold exec_.
  cbn [agenda weight fold_right slot cost Nat.add set_exit_req set_in_exec
       now instance next_id deferred_delete in_exec exit_req worker_running
       finished_quit patched mock_calls stdout draws rand].
  match goal with
  | |- context [exec_loop (S ?k) ?W] =>
      edestruct (exec_loop_continues_proj k W) as [Eo [Ef _]];
      [ wcbn; solve_take_next
      | wcbn; unfold QThread_start; wcbn;
        rewrite Worker_run_length; rewrite (Z.max_l n n) by lia; reflexivity
      | reflexivity
      | rewrite Eo, Ef; clear Eo Ef ]
  end.
  match goal with
  | |- context [exec_loop ?k ?w2] =>
      destruct (drain_deliveries (Worker_run n dr rnd) k w2
                  (mkEntry gd go (qapp_exit c)) c (n + 100 * Z.of_nat 20))
        as [O [M [N W]]]
  end; try reflexivity.
  - apply Worker_run_iter_ascending.
  - wcbn. lia.
  - wcbn. lia.
  - rewrite Worker_run_length. simpl. lia.
  - rewrite O, M, N, W. wcbn. repeat split; try reflexivity. lia.
Qed.

(** ** Ownership confines the callbacks of a test *)

Lemma entry_foreign_confined (o : QObject) (e : entry) :
  entry_foreign o e = true -> entry_confined o e = true.
Proof.
  unfold entry_foreign, entry_confined. intros H.
  apply andb_true_iff in H. destruct H as [H1 H2].
  apply negb_true_iff in H1. rewrite H1. exact H2.
Qed.

(** What a callable that schedules only through the harness of [o] registers
    is owned by [o] and schedules only through that harness again. *)
Lemma spawns_confined (o : QObject) (f : callable) (e : entry) :
  spawns f e -> confined_callable o f = true ->
  owner e = Some o /\ confined_callable o (slot e) = true.
Proof.
  intros Hs.
  induction Hs as [ms g t | o' ms g t | g h e Hs IH | g h e Hs IH | t v | t | t];
    simpl; intros Hf; try discriminate.
  - apply andb_true_iff in Hf. destruct Hf as [H1 H2].
    apply Nat.eqb_eq in H1. subst o'. split; [reflexivity|exact H2].
  - apply andb_true_iff in Hf. apply IH. tauto.
  - apply andb_true_iff in Hf. apply IH. tauto.
Qed.

Lemma owner_owned_by (o : QObject) (e : entry) :
  owner e = Some o -> owned_by o e = true.
Proof. unfold owned_by. intros ->. apply Nat.eqb_refl. Qed.

Lemma spawns_foreign (o : QObject) (f : callable) (e : entry) :
  spawns f e -> mentions o f = false -> entry_foreign o e = true.
Proof.
  intros Hs.
  induction Hs as [ms g t | o' ms g t | g h e Hs IH | g h e Hs IH | t v | t | t];
    simpl; intros Hf; unfold entry_foreign, owned_by; simpl;
    try reflexivity.
  - rewrite Hf. reflexivity.
  - apply orb_false_iff in Hf. destruct Hf as [H1 H2]. rewrite H1, H2. reflexivity.
  - apply orb_false_iff in Hf. apply IH. tauto.
  - apply orb_false_iff in Hf. apply IH. tauto.
Qed.

(** A predicate on entries that the entries spawned by a satisfying entry
    satisfy again is kept by every dispatch. *)
Section Hereditary.

Variable P : entry -> Prop.
Hypothesis P_spawns : forall e x, P e -> spawns (slot e) x -> P x.

Let all_P (w : world) : Prop := Forall P (agenda w).

Lemma dispatch_keeps (w : world) (e : entry) (rest : list entry) (t : Z) (w2 : world) :
  all_P w -> take_next (agenda w) = Some (e, rest) ->
  call (slot e) (set_now t (set_agenda rest w)) = Some w2 ->
  P e /\ all_P w2.
Proof.
  unfold all_P. intros Hw E C. rewrite Forall_forall in Hw.
  assert (He : P e).
  { apply Hw. apply (take_next_split _ _ _ E). left. reflexivity. }
  split; [exact He|].
  destruct (call_spawns _ _ _ C) as [ad [A Sp]]. rewrite A. simpl.
  apply Forall_app. split.
  - apply Forall_forall. intros x Hx. apply Hw.
    apply (take_next_split _ _ _ E). right. exact Hx.
  - eapply Forall_impl; [|exact Sp]. intros x Hx. exact (P_spawns e x He Hx).
Qed.

Lemma exec_loop_keeps (fuel : nat) :
  forall w, all_P w ->
            Forall P (fired (exec_loop fuel w)) /\
            all_P (final (exec_loop fuel w)).
Proof.
  induction fuel as [|k IH]; intros w Hw; simpl.
  - split; [constructor|exact Hw].
  - destruct (take_next (agenda w)) as [[e rest]|] eqn:E; simpl.
    2:{ split; [constructor|exact Hw]. }
    destruct (call (slot e) _) as [w2|] eqn:C; simpl.
    + destruct (dispatch_keeps _ _ _ _ _ Hw E C) as [He Hw2].
      destruct (exit_req w2); simpl.
      * split; [repeat constructor; exact He|exact Hw2].
      * destruct (IH w2 Hw2) as [F1 F2]. split; [constructor; assumption|exact F2].
    + unfold all_P in *. rewrite Forall_forall in Hw. split.
      * repeat constructor. apply Hw. apply (take_next_split _ _ _ E). left. reflexivity.
      * simpl. apply Forall_forall. intros x Hx. apply Hw.
        apply (take_next_split _ _ _ E). right. exact Hx.
Qed.

Lemma exec_keeps (w : world) :
  all_P w ->
  Forall P (fired (exec_ w)) /\ all_P (final (exec_ w)).
Proof. intros Hw. unfold exec_. apply exec_loop_keeps. exact Hw. Qed.

Lemma processEvents_loop_keeps (fuel : nat) :
  forall w w', all_P w -> processEvents_loop fuel w = Some w' -> all_P w'.
Proof.
  induction fuel as [|k IH]; intros w w' Hw H; simpl in H.
  - inversion H; subst. exact Hw.
  - destruct (take_next (agenda w)) as [[e rest]|] eqn:E.
    2:{ inversion H; subst. exact Hw. }
    destruct (due e <=? now w).
    2:{ inversion H; subst. exact Hw. }
    destruct (call (slot e) (set_agenda rest w)) as [w2|] eqn:C; [|discriminate].
    apply (IH w2 w'); [|exact H].
    replace (set_agenda rest w) with (set_now (now w) (set_agenda rest w)) in C
      by (destruct w; reflexivity).
    exact (proj2 (dispatch_keeps _ _ _ _ _ Hw E C)).
Qed.

End Hereditary.

Lemma foreign_hereditary (o : QObject) (e x : entry) :
  entry_foreign o e = true -> spawns (slot e) x -> entry_foreign o x = true.
Proof.
  intros He Hx. apply (spawns_foreign o _ _ Hx).
  unfold entry_foreign in He. apply andb_true_iff in He.
  apply negb_true_iff. tauto.
Qed.

Lemma confined_hereditary (o : QObject) (e x : entry) :
  entry_confined o e = true -> spawns (slot e) x -> entry_confined o x = true.
Proof.
  unfold entry_confined at 1. intros He Hx. destruct (owned_by o e) eqn:Ho.
  - destruct (spawns_confined o _ _ Hx He) as [H1 H2].
    unfold entry_confined. rewrite (owner_owned_by _ _ H1). exact H2.
  - apply entry_foreign_confined. apply (foreign_hereditary o e); [|exact Hx].
    unfold entry_foreign. rewrite Ho, He. reflexivity.
Qed.

(** Registering through the harness keeps the test confined. *)
Lemma single_shot_confined (self : LessLeakyTests.self_t) (ms : Z) (f : callable)
    (w : world) :
  confined_callable (LessLeakyTests.test_qobj self) f = true ->
  confined (LessLeakyTests.test_qobj self) w ->
  confined (LessLeakyTests.test_qobj self) (LessLeakyTests._single_shot self ms f w).
Proof.
  intros Hf Hw. unfold LessLeakyTests._single_shot, QTimer_start, confined.
  destruct (ms <? 0); [exact Hw|]. simpl. apply Forall_app. split; [exact Hw|].
  repeat constructor. unfold entry_confined, owned_by. simpl.
  rewrite Nat.eqb_refl. exact Hf.
Qed.

Lemma single_shot_owner (self : LessLeakyTests.self_t) (ms : Z) (f : callable)
    (w : world) (e : entry) :
  In e (agenda (LessLeakyTests._single_shot self ms f w)) ->
  In e (agenda w) \/ (owner e = Some (LessLeakyTests.test_qobj self) /\ slot e = f).
Proof.
  unfold LessLeakyTests._single_shot, QTimer_start.
  destruct (ms <? 0); [tauto|]. simpl. intros H.
  apply in_app_or in H. destruct H as [H|[<-|[]]]; [left; exact H|right].
  split; reflexivity.
Qed.

Lemma schedule_all_confined (self : LessLeakyTests.self_t) (sched : list (Z * callable)) :
  forall w,
    Forall (fun p => confined_callable (LessLeakyTests.test_qobj self) (snd p) = true) sched ->
    confined (LessLeakyTests.test_qobj self) w ->
    confined (LessLeakyTests.test_qobj self) (schedule_all self sched w).
Proof.
  induction sched as [|p sched IH]; intros w Hs Hw; simpl; [exact Hw|].
  inversion Hs; subst. apply IH; [assumption|].
  apply single_shot_confined; assumption.
Qed.

(** Deleting the owner leaves nothing of the test behind. *)
Lemma doomed_owned (dd : list QObject) (o : QObject) (e : entry) :
  doomed dd e = false -> In o dd -> owned_by o e = false.
Proof.
  unfold doomed. intros H Hin.
  destruct (owned_by o e) eqn:E; [|reflexivity].
  assert (existsb (fun o' => owned_by o' e) dd = true).
  { apply existsb_exists. exists o. split; assumption. }
  congruence.
Qed.

Lemma release_leaves_foreign (self : LessLeakyTests.self_t) (w w' : world) :
  confined (LessLeakyTests.test_qobj self) w ->
  LessLeakyTests.release_qt_resources self w = Some w' ->
  foreign (LessLeakyTests.test_qobj self) w'.
Proof.
  set (o := LessLeakyTests.test_qobj self). intros Hw H.
  unfold LessLeakyTests.release_qt_resources, processEvents in H.
  eapply (processEvents_loop_keeps (fun e => entry_foreign o e = true) (foreign_hereditary o));
    [|exact H].
  unfold sendPostedEvents_DeferredDelete, deleteLater. simpl.
  apply Forall_forall. intros e He. apply filter_In in He. destruct He as [He Hd].
  apply negb_true_iff in Hd.
  assert (Ho : owned_by o e = false).
  { apply (doomed_owned _ _ _ Hd). apply in_or_app. right. left. reflexivity. }
  unfold confined in Hw. rewrite Forall_forall in Hw. specialize (Hw e He).
  unfold entry_confined in Hw. fold o in Hw. rewrite Ho in Hw.
  unfold entry_foreign. rewrite Ho, Hw. reflexivity.
Qed.

(** An owner created by [setUp] is fresh when the pending entries only know
    older objects. *)
Lemma ids_below_not_mentioned (o : QObject) (f : callable) :
  callable_ids_below o f = true -> mentions o f = false.
Proof.
  induction f as [ | c | v | ms g IHg | o' ms g IHg | g IHg h IHh | | v | ];
    simpl; intros H; try reflexivity.
  - exact (IHg H).
  - apply andb_true_iff in H. destruct H as [H1 H2]. rewrite (IHg H2).
    apply Nat.ltb_lt in H1.
    assert (Nat.eqb o' o = false) by (apply Nat.eqb_neq; lia).
    rewrite H. reflexivity.
  - apply andb_true_iff in H. destruct H as [H1 H2].
    rewrite (IHg H1), (IHh H2). reflexivity.
Qed.

Lemma ids_below_mono (n m : QObject) (f : callable) :
  (n <= m)%nat -> callable_ids_below n f = true -> callable_ids_below m f = true.
Proof.
  intros Hnm.
  induction f as [ | c | v | ms g IHg | o' ms g IHg | g IHg h IHh | | v | ];
    simpl; intros H; try reflexivity.
  - exact (IHg H).
  - apply andb_true_iff in H. destruct H as [H1 H2]. rewrite (IHg H2).
    apply Nat.ltb_lt in H1.
    assert (Nat.ltb o' m = true) by (apply Nat.ltb_lt; lia).
    rewrite H. reflexivity.
  - apply andb_true_iff in H. destruct H as [H1 H2].
    rewrite (IHg H1), (IHh H2). reflexivity.
Qed.

Lemma entry_ids_below_foreign (n o : QObject) (e : entry) :
  (n <= o)%nat -> entry_ids_below n e = true -> entry_foreign o e = true.
Proof.
  unfold entry_ids_below, entry_foreign, owned_by. intros Hno H.
  apply andb_true_iff in H. destruct H as [H1 H2].
  rewrite (ids_below_not_mentioned o (slot e) (ids_below_mono n o _ Hno H2)).
  destruct (owner e) as [p|]; [|reflexivity].
  apply Nat.ltb_lt in H1.
  assert (Nat.eqb p o = false) by (apply Nat.eqb_neq; lia).
  rewrite H. reflexivity.
Qed.

Lemma setUp_owner_fresh (w w1 : world) (self : LessLeakyTests.self_t) :
  Forall (fun e => entry_ids_below (next_id w) e = true) (agenda w) ->
  LessLeakyTests.setUp w = Some (self, w1) ->
  foreign (LessLeakyTests.test_qobj self) w1.
Proof.
  intros Hw H.
  destruct (less_leaky_setUp_total w) as [a [o [w1' [S1 [A1 [_ [_ [Ho _]]]]]]]].
  rewrite S1 in H. inversion H; subst. unfold foreign. rewrite A1.
  eapply Forall_impl; [|exact Hw]. intros e He. simpl.
  apply (entry_ids_below_foreign (next_id w)); [lia|exact He].
Qed.

(** ** What a test schedules, and what comes after it *)

Lemma schedule_all_entries (self : LessLeakyTests.self_t) (sched : list (Z * callable)) :
  forall w e,
    In e (agenda (schedule_all self sched w)) ->
    In e (agenda w) \/
    (owner e = Some (LessLeakyTests.test_qobj self) /\
     exists p, In p sched /\ slot e = snd p).
Proof.
  induction sched as [|p sched IH]; intros w e H; simpl in H; [left; exact H|].
  destruct (IH _ _ H) as [H1|[H1 [q [Hq Hs]]]].
  - destruct (single_shot_owner _ _ _ _ _ H1) as [H2|[H2 H3]]; [left; exact H2|right].
    split; [exact H2|]. exists p. split; [left; reflexivity|exact H3].
  - right. split; [exact H1|]. exists q. split; [right; exact Hq|exact Hs].
Qed.

Lemma scheduled_by_owned (self : LessLeakyTests.self_t) (sched : list (Z * callable))
    (e : entry) :
  Forall (fun p => confined_callable (LessLeakyTests.test_qobj self) (snd p) = true) sched ->
  scheduled_by self sched e ->
  owner e = Some (LessLeakyTests.test_qobj self) /\
  confined_callable (LessLeakyTests.test_qobj self) (slot e) = true.
Proof.
  intros Hs H. induction H as [w e He | e x _ [_ IH] Hx].
  - destruct (schedule_all_entries _ _ _ _ He) as [[]|[Ho [p [Hp Hf]]]].
    split; [exact Ho|]. rewrite Hf. rewrite Forall_forall in Hs. exact (Hs p Hp).
  - exact (spawns_confined _ _ _ Hx IH).
Qed.

Lemma foreign_not_scheduled (self : LessLeakyTests.self_t) (sched : list (Z * callable))
    (e : entry) :
  Forall (fun p => confined_callable (LessLeakyTests.test_qobj self) (snd p) = true) sched ->
  entry_foreign (LessLeakyTests.test_qobj self) e = true ->
  ~ scheduled_by self sched e /\
  owned_by (LessLeakyTests.test_qobj self) e = false /\
  mentions (LessLeakyTests.test_qobj self) (slot e) = false.
Proof.
  intros Hs He. unfold entry_foreign in He. apply andb_true_iff in He.
  destruct He as [H1 H2]. apply negb_true_iff in H1. apply negb_true_iff in H2.
  split; [|split; assumption].
  intros Hsch. destruct (scheduled_by_owned _ _ _ Hs Hsch) as [Ho _].
  rewrite (owner_owned_by _ _ Ho) in H1. discriminate.
Qed.

Lemma setUp_keeps_agenda (w w' : world) (self : LessLeakyTests.self_t) :
  LessLeakyTests.setUp w = Some (self, w') -> agenda w' = agenda w.
Proof.
  intros H.
  destruct (less_leaky_setUp_total w) as [a [o [w1 [S1 [A1 _]]]]].
  rewrite S1 in H. inversion H; subst. exact A1.
Qed.

Lemma release_keeps_foreign (o : QObject) (self : LessLeakyTests.self_t) (w w' : world) :
  foreign o w -> LessLeakyTests.release_qt_resources self w = Some w' -> foreign o w'.
Proof.
  intros Hw H. unfold LessLeakyTests.release_qt_resources, processEvents in H.
  eapply (processEvents_loop_keeps (fun e => entry_foreign o e = true) (foreign_hereditary o));
    [|exact H].
  unfold sendPostedEvents_DeferredDelete, deleteLater. simpl.
  apply Forall_forall. intros e He. apply filter_In in He. destruct He as [He _].
  unfold foreign in Hw. rewrite Forall_forall in Hw. exact (Hw e He).
Qed.

Lemma subsequent_foreign (o : QObject) (w w' : world) :
  foreign o w -> subsequent o w w' -> foreign o w'.
Proof.
  intros Hw H.
  induction H as [ | w' self' w'' _ IH Hs | w' parent msec f _ IH Hp Hf
                 | w' _ IH | w' self' w'' _ IH Hr ].
  - exact Hw.
  - unfold foreign. rewrite (setUp_keeps_agenda _ _ _ Hs). exact IH.
  - unfold foreign, QTimer_start. destruct (msec <? 0); [exact IH|]. simpl.
    apply Forall_app. split; [exact IH|]. repeat constructor.
    unfold entry_foreign, owned_by. simpl. rewrite Hf.
    destruct parent as [q|]; [|reflexivity].
    assert (Hq : Nat.eqb q o = false) by (apply Nat.eqb_neq; congruence).
    rewrite Hq. reflexivity.
  - exact (proj2 (exec_keeps (fun e => entry_foreign o e = true)
                    (foreign_hereditary o) w' IH)).
  - exact (release_keeps_foreign o self' w' w'' IH Hr).
Qed.

(** When everything pending is owned by the test's object, the cleanup leaves
    nothing pending. *)
Lemma release_all_owned (self : LessLeakyTests.self_t) (w : world) :
  Forall (fun e => owner e = Some (LessLeakyTests.test_qobj self)) (agenda w) ->
  exists w', LessLeakyTests.release_qt_resources self w = Some w' /\ agenda w' = [].
Proof.
  intros Hw. unfold LessLeakyTests.release_qt_resources.
  set (o := LessLeakyTests.test_qobj self) in *.
  assert (Hf : agenda (sendPostedEvents_DeferredDelete (deleteLater o w)) = []).
  { unfold sendPostedEvents_DeferredDelete, deleteLater. simpl.
    induction Hw as [|e l He _ IH]; [reflexivity|]. simpl.
    unfold doomed at 1. rewrite existsb_app. simpl.
    rewrite (owner_owned_by _ _ He), orb_true_r. simpl. exact IH. }
  cbv zeta. revert Hf.
  generalize (sendPostedEvents_DeferredDelete (deleteLater o w)). intros w2 Hf.
  exists w2. split; [|exact Hf].
  unfold processEvents. cbn [processEvents_loop]. rewrite Hf. reflexivity.
Qed.

(** ** Returning from a run *)

Lemma exec_loop_returned_not_running (fuel : nat) :
  forall w c, outcome (exec_loop fuel w) = Returned c ->
              in_exec (final (exec_loop fuel w)) = false.
Proof.
  induction fuel as [|k IH]; intros w c H; simpl in H |- *; [discriminate|].
  destruct (take_next (agenda w)) as [[e rest]|]; simpl in H |- *; [|discriminate].
  destruct (call (slot e) _) as [w2|]; simpl in H |- *; [|discriminate].
  destruct (exit_req w2); simpl in H |- *; [reflexivity|].
  exact (IH w2 c H).
Qed.

Lemma exec_returned_not_running (w : world) (c : Z) :
  outcome (exec_ w) = Returned c -> in_exec (final (exec_ w)) = false.
Proof. unfold exec_. apply exec_loop_returned_not_running. Qed.

(** [exec_] starts from a clean exit flag, whatever was requested before. *)
Lemma exec_ignores_stale_request (w : world) (x : option Z) :
  exec_ (set_exit_req x w) = exec_ w.
Proof. reflexivity. Qed.

(** The one assertion the samples make inside a callback cannot fail:
    [setUp] always stores an application in [self.qapp]. *)
Lemma leaky_do_task_raises_nothing (w w1 : world) (self : LeakyTests.self_t) :
  LeakyTests.setUp w = Some (self, w1) ->
  raises_nothing (LeakyTests.do_task self) = true.
Proof.
  intros H. destruct (leaky_setUp_total w) as [a [w1' [S1 _]]].
  rewrite S1 in H. inversion H; subst. reflexivity.
Qed.

(** * The claims *)

(** C1.  In any run of the loop, the first stop request to fire ends the run
    and decides the exit code: when it is the success callback ([quit]) the
    run returns 0, when it is the timeout guard ([exit(-1)]) the run returns
    -1.  In the concrete scenario of [test_one] (a delay-0 callback that
    schedules [quit] at 3000 ms, a guard at 5000 ms), started with nothing
    else pending, the run returns 0 at 3000 ms and the test passes, in the
    leaky and in the less leaky case. *)
Theorem first_stop_request_decides_exit_code (w : world) :
  (forall pre e post,
      fired (exec_ w) = pre ++ e :: post ->
      (slot e = qapp_quit -> outcome (exec_ w) = Returned 0 /\ post = []) /\
      (slot e = qapp_exit (-1) -> outcome (exec_ w) = Returned (-1) /\ post = [])) /\
  (agenda w = [] ->
   exists r, LeakyTests.run_case LeakyTests.test_one w = Some (Passed, r) /\
             outcome r = Returned 0 /\ now (final r) = now w + 3000) /\
  (agenda w = [] ->
   exists r w', LessLeakyTests.run_case LessLeakyTests.test_one w = Some (Passed, r, Some w') /\
                outcome r = Returned 0 /\ now (final r) = now w + 3000).
Proof.
  split; [|split].
  - intros pre e post Hf. split; intros Hs.
    + apply (exec_stop_is_last w pre e post 0 Hf). rewrite Hs. reflexivity.
    + apply (exec_stop_is_last w pre e post (-1) Hf). rewrite Hs. reflexivity.
  - intros Hq. destruct (leaky_test_one_quiet w Hq) as [r [R [O [N _]]]].
    exists r. repeat split; assumption.
  - intros Hq. destruct (less_leaky_case_quiet w Hq) as [r [w' [R [O [N _]]]]].
    exists r, w'. repeat split; assumption.
Qed.

Lemma first_stop_request_decides_exit_code_witness :
  outcome (exec_ sample_scenario) = Returned 0 /\
  (exists r, LeakyTests.run_case LeakyTests.test_one sample_process = Some (Passed, r) /\
             outcome r = Returned 0 /\ now (final r) = now sample_process + 3000) /\
  (exists r w', LessLeakyTests.run_case LessLeakyTests.test_one sample_process
                = Some (Passed, r, Some w') /\
                outcome r = Returned 0 /\ now (final r) = now sample_process + 3000).
Proof.
  split; [|split].
  - apply (proj1 (proj1 (first_stop_request_decides_exit_code sample_scenario)
                    [mkEntry 0 None (LeakyTests.do_task sample_self)]
                    (mkEntry 3000 None qapp_quit) [] eq_refl) eq_refl).
  - apply (proj1 (proj2 (first_stop_request_decides_exit_code sample_process))).
    reflexivity.
  - apply (proj2 (proj2 (first_stop_request_decides_exit_code sample_process))).
    reflexivity.
Defined.



(** C3.  With no success path at all and only the 5000 ms timeout guard
    registered before the loop starts, the run returns -1 at 5000 ms: the
    guard is the only entry that fires, and [test_fail_if_timeout] passes. *)
Theorem hang_returns_timeout_code (w : world) :
  agenda w = [] ->
  (exists r, LeakyTests.run_case LeakyTests.test_fail_if_timeout w = Some (Passed, r) /\
             outcome r = Returned (-1) /\ now (final r) = now w + 5000 /\
             fired r = [mkEntry (now w + 5000) None (qapp_exit (-1))]) /\
  (forall self, outcome (exec_ (LeakyTests._fail_if_timeout self w)) = Returned (-1) /\
                now (final (exec_ (LeakyTests._fail_if_timeout self w))) = now w + 5000) /\
  (forall self, outcome (exec_ (LessLeakyTests._fail_if_timeout self w)) = Returned (-1) /\
                now (final (exec_ (LessLeakyTests._fail_if_timeout self w))) = now w + 5000).
Proof.
  intros Hq. split; [|split].
  - exact (leaky_test_fail_if_timeout_quiet w Hq).
  - intros self. destruct (leaky_guard_only_run self w Hq) as [O [N _]]. split; assumption.
  - intros self. exact (less_leaky_guard_only_run self w Hq).
Qed.

Lemma hang_returns_timeout_code_witness :
  exists r, LeakyTests.run_case LeakyTests.test_fail_if_timeout sample_process
            = Some (Passed, r) /\
            outcome r = Returned (-1) /\ now (final r) = now sample_process + 5000 /\
            fired r = [mkEntry (now sample_process + 5000) None (qapp_exit (-1))].
Proof.
  apply (proj1 (hang_returns_timeout_code sample_process eq_refl)).
Defined.

(** C4.  The worker emits exactly 20 results.  When the timeout guard is due
    after the worker has finished (an interval above 2000 ms, as the 3000 ms
    of [test_controller_and_worker_better]) and nothing else is pending, the
    mocked handler has recorded exactly 20 calls when the loop returns, the
    loop returns 0, and the test passes. *)
Theorem worker_results_all_observed (w : world) (T : Z) :
  agenda w = [] -> 2000 < T ->
  length (Worker_run (now w) (draws w) (rand w)) = 20%nat /\
  (exists r, controller_and_worker_with_timeout T w = Some (Passed, r) /\
             outcome r = Returned 0 /\
             length (mock_calls (final r)) = 20%nat /\
             mock_calls (final r) = map snd (Worker_run (now w) (draws w) (rand w)) /\
             now (final r) = now w + 2000) /\
  (exists r, test_controller_and_worker_better w = Some (Passed, r) /\
             outcome r = Returned 0 /\ length (mock_calls (final r)) = 20%nat).
Proof.
  intros Hq HT.
  assert (G : forall T', 2000 < T' ->
             exists r, controller_and_worker_with_timeout T' w = Some (Passed, r) /\
                       outcome r = Returned 0 /\
                       length (mock_calls (final r)) = 20%nat /\
                       mock_calls (final r) = map snd (Worker_run (now w) (draws w) (rand w)) /\
                       now (final r) = now w + 2000).
  { clear T HT. intros T HT.
    destruct w as [n ag inst nid dd ie er wr fq pa mc so dr rnd]. simpl in Hq. subst ag.
    unfold controller_and_worker_with_timeout, QCoreApplication_instance,
      QCoreApplication_new, Controller_init, Controller_start, QObject_new.
    cbn [now draws rand].
    destruct inst as [a|]; cbn [instance];
      match goal with
      | |- context [exec_ ?W] => set (W0 := W)
      end;
      (edestruct (worker_scenario_loop W0) as [O [M [N R]]];
       [ unfold W0; wsimpl; reflexivity | reflexivity | unfold W0; wsimpl; lia
       | unfold W0; wsimpl; reflexivity | unfold W0; wsimpl; reflexivity
       | unfold W0; wsimpl; reflexivity | ]);
      assert (Hm : mock_calls W0 = []) by (unfold W0; wsimpl; reflexivity);
      assert (Hn : now W0 = n) by (unfold W0; wsimpl; reflexivity);
      assert (Hd : draws W0 = dr) by (unfold W0; wsimpl; reflexivity);
      assert (Hr : rand W0 = rnd) by (unfold W0; wsimpl; reflexivity);
      rewrite Hm, Hn, Hd, Hr in M; cbn [app] in M; rewrite Hn in N;
      unfold assertEqual_exec; rewrite O; cbn [Z.eqb];
      rewrite M, length_map, Worker_run_length; cbn [Nat.eqb];
      (eexists; split; [reflexivity|]; split; [exact O|]; split;
       [rewrite M, length_map; apply Worker_run_length|]; split; [exact M|exact N]). }
  split; [apply Worker_run_length|]. split; [exact (G T HT)|].
  destruct (G 3000 ltac:(lia)) as [r [R [O [L _]]]].
  exists r. repeat split; assumption.
Qed.

Lemma worker_results_all_observed_witness :
  exists r, test_controller_and_worker_better sample_process = Some (Passed, r) /\
            outcome r = Returned 0 /\ length (mock_calls (final r)) = 20%nat.
Proof.
  apply (proj2 (proj2 (worker_results_all_observed sample_process 3000 eq_refl eq_refl))).
Defined.

(** C5, as the code has it.  Each test installs exactly one timeout guard.
    In [LessLeakyTests] the guard is owned by the per-test object: when the
    completion callback stops the loop first the run returns 0 with the guard
    still pending, the cleanup [release_qt_resources] then deletes it, and the
    next test runs to its own completion without any guard firing.  In
    [LeakyTests] nothing cancels the guard: it is still pending after the loop
    has stopped. *)
Theorem guard_cancelled_only_by_cleanup (w : world) :
  agenda w = [] ->
  (forall self w0,
      agenda (LessLeakyTests._fail_if_timeout self w0) =
      agenda w0 ++ [mkEntry (now w0 + 5000) (Some (LessLeakyTests.test_qobj self))
                            (qapp_exit (-1))]) /\
  (forall self w0,
      agenda (LeakyTests._fail_if_timeout self w0) =
      agenda w0 ++ [mkEntry (now w0 + 5000) None (qapp_exit (-1))]) /\
  (exists r1 w1 r2 w2,
      LessLeakyTests.run_case LessLeakyTests.test_one w = Some (Passed, r1, Some w1) /\
      outcome r1 = Returned 0 /\
      (exists g, agenda (final r1) = [g] /\ slot g = qapp_exit (-1)) /\
      agenda w1 = [] /\
      LessLeakyTests.run_case LessLeakyTests.test_two w1 = Some (Passed, r2, Some w2) /\
      outcome r2 = Returned 0 /\
      (forall e, In e (fired r2) -> slot e <> qapp_exit (-1)) /\
      agenda w2 = []) /\
  (exists r, LeakyTests.run_case LeakyTests.test_one w = Some (Passed, r) /\
             outcome r = Returned 0 /\
             agenda (final r) = [mkEntry (now w + 5000) None (qapp_exit (-1))]).
Proof.
  intros Hq. split; [|split; [|split]].
  - intros self w0. reflexivity.
  - intros self w0. reflexivity.
  - destruct (less_leaky_case_quiet w Hq) as [r1 [w1 [R1 [O1 [_ [[g [A1 [G1 _]]] [_ [Q1 _]]]]]]]].
    destruct (less_leaky_case_two_quiet w1 Q1) as [r2 [w2 [R2 [O2 [_ [_ [F2 [Q2 _]]]]]]]].
    exists r1, w1, r2, w2. repeat split; try assumption.
    exists g. split; assumption.
  - destruct (leaky_test_one_quiet w Hq) as [r [R [O [_ A]]]].
    exists r. repeat split; assumption.
Qed.

Lemma guard_cancelled_only_by_cleanup_witness :
  exists r, LeakyTests.run_case LeakyTests.test_one sample_process = Some (Passed, r) /\
            outcome r = Returned 0 /\
            agenda (final r) = [mkEntry (now sample_process + 5000) None (qapp_exit (-1))].
Proof.
  apply (proj2 (proj2 (proj2 (guard_cancelled_only_by_cleanup sample_process eq_refl)))).
Defined.

(** C5, as stated, fails in [LeakyTests]: in a fresh process [test_one]
    stops its loop with 0 through its completion callback, yet its guard stays
    pending, fires at 5000 ms during the run of [test_two], and makes that run
    return -1, so that [test_two] fails. *)
Lemma leaky_guard_fires_in_next_test :
  match LeakyTests.run_case LeakyTests.test_one sample_process with
  | Some (v1, r1) =>
      v1 = Passed /\ outcome r1 = Returned 0 /\
      agenda (final r1) = [mkEntry 5000 None (qapp_exit (-1))] /\
      match LeakyTests.run_case LeakyTests.test_two (final r1) with
      | Some (v2, r2) =>
          v2 = Failed /\ outcome r2 = Returned (-1) /\ now (final r2) = 5000 /\
          In (mkEntry 5000 None (qapp_exit (-1))) (fired r2)
      | None => False
      end
  | None => False
  end.
Proof.
  vm_compute. repeat split; try reflexivity. right. left. reflexivity.
Qed.

(** C6.  Every timer scheduled through the harness is parented to the
    per-test object: [_single_shot] registers one timer owned by it, and
    whatever a test schedules, in its body or from its callbacks, is owned by
    it when the test schedules only through its harness.  From a process with
    nothing pending, everything that fires in the test's run or is left of it
    was scheduled by the test, and [release_qt_resources] returns and leaves
    nothing pending.  In any process whose pending entries do not belong to
    the test, after [release_qt_resources] and whatever the later tests do,
    nothing the test scheduled is pending and nothing it scheduled fires in a
    loop run. *)
Theorem released_owner_never_fires_again (self : LessLeakyTests.self_t)
    (w0 : world) (sched : list (Z * callable)) :
  foreign (LessLeakyTests.test_qobj self) w0 ->
  Forall (fun p => confined_callable (LessLeakyTests.test_qobj self) (snd p) = true) sched ->
  (forall ms f w,
      0 <= ms ->
      agenda (LessLeakyTests._single_shot self ms f w) =
      agenda w ++ [mkEntry (now w + ms) (Some (LessLeakyTests.test_qobj self)) f]) /\
  (forall e, scheduled_by self sched e -> owner e = Some (LessLeakyTests.test_qobj self)) /\
  (agenda w0 = [] ->
   Forall (scheduled_by self sched)
          (fired (exec_ (schedule_all self sched w0)) ++
           agenda (final (exec_ (schedule_all self sched w0)))) /\
   exists w2,
     LessLeakyTests.release_qt_resources self (final (exec_ (schedule_all self sched w0)))
     = Some w2 /\ agenda w2 = []) /\
  (forall w2,
      LessLeakyTests.release_qt_resources self (final (exec_ (schedule_all self sched w0)))
      = Some w2 ->
      forall w3,
        subsequent (LessLeakyTests.test_qobj self) w2 w3 ->
        Forall (fun e => ~ scheduled_by self sched e /\
                         owned_by (LessLeakyTests.test_qobj self) e = false /\
                         mentions (LessLeakyTests.test_qobj self) (slot e) = false)
               (agenda w3 ++ fired (exec_ w3))).
Proof.
  set (o := LessLeakyTests.test_qobj self). intros Hw0 Hs.
  split; [|split; [|split]].
  - intros ms f w Hms. unfold LessLeakyTests._single_shot, QTimer_start. fold o.
    replace (ms <? 0) with false by (symmetry; apply Z.ltb_ge; lia). reflexivity.
  - intros e He. exact (proj1 (scheduled_by_owned self sched e Hs He)).
  - intros Hq.
    assert (H1 : Forall (scheduled_by self sched) (agenda (schedule_all self sched w0))).
    { apply Forall_forall. intros e He. apply (scheduled_by_body self sched w0).
      replace (set_agenda [] w0) with w0; [exact He|].
      destruct w0; simpl in Hq; subst; reflexivity. }
    destruct (exec_keeps (scheduled_by self sched) (scheduled_by_callback self sched)
                _ H1) as [F1 F2].
    split; [apply Forall_app; split; assumption|].
    apply release_all_owned. eapply Forall_impl; [|exact F2].
    intros e He. exact (proj1 (scheduled_by_owned self sched e Hs He)).
  - intros w2 Hrel w3 Hsub.
    assert (Hc0 : confined o w0).
    { eapply Forall_impl; [|exact Hw0]. intros e. apply entry_foreign_confined. }
    assert (Hc1 : confined o (schedule_all self sched w0))
      by (apply schedule_all_confined; assumption).
    destruct (exec_keeps (fun e => entry_confined o e = true) (confined_hereditary o)
                _ Hc1) as [_ Hc2].
    assert (Hf2 : foreign o w2) by (exact (release_leaves_foreign self _ _ Hc2 Hrel)).
    assert (Hf3 : foreign o w3) by (exact (subsequent_foreign o w2 w3 Hf2 Hsub)).
    destruct (exec_keeps (fun e => entry_foreign o e = true) (foreign_hereditary o)
                w3 Hf3) as [F1 _].
    apply Forall_app. split.
    + eapply Forall_impl; [|exact Hf3]. intros e. apply foreign_not_scheduled. exact Hs.
    + eapply Forall_impl; [|exact F1]. intros e. apply foreign_not_scheduled. exact Hs.
Qed.

Lemma released_owner_never_fires_again_witness :
  exists w2,
    LessLeakyTests.release_qt_resources sample_less_leaky_self
      (final (exec_ (schedule_all sample_less_leaky_self sample_schedule sample_after_setUp)))
    = Some w2 /\
    Forall (fun e => ~ scheduled_by sample_less_leaky_self sample_schedule e /\
                     owned_by 1%nat e = false /\ mentions 1%nat (slot e) = false)
           (agenda (QTimer_start (Some 2%nat) 5000 (qapp_exit (-1)) w2) ++
            fired (exec_ (QTimer_start (Some 2%nat) 5000 (qapp_exit (-1)) w2))).
Proof.
  assert (H1 : foreign (LessLeakyTests.test_qobj sample_less_leaky_self) sample_after_setUp)
    by constructor.
  assert (H2 : Forall (fun p => confined_callable
                                  (LessLeakyTests.test_qobj sample_less_leaky_self) (snd p)
                                = true) sample_schedule)
    by (repeat constructor).
  eexists. split; [vm_compute; reflexivity|].
  match goal with
  | |- Forall _ (agenda (QTimer_start _ _ _ ?W) ++ _) =>
      apply (proj2 (proj2 (proj2 (released_owner_never_fires_again sample_less_leaky_self
                                    sample_after_setUp sample_schedule H1 H2))) W)
  end.
  - vm_compute. reflexivity.
  - apply subsequent_timer; [apply subsequent_refl|discriminate|reflexivity].
Defined.

(** The hypothesis is needed: a callback that calls [QTimer.singleShot]
    itself does not schedule through the harness, and the timer it starts
    outlives the cleanup. *)
Example timer_started_past_the_harness_outlives_cleanup :
  confined_callable 1%nat (QTimer_singleShot 5000 (qapp_exit (-1))) = false /\
  exists w2,
    LessLeakyTests.release_qt_resources sample_less_leaky_self
      (final (exec_ (schedule_all sample_less_leaky_self
                       [(0, QTimer_singleShot 5000 (qapp_exit (-1))); (3000, qapp_quit)]
                       sample_after_setUp)))
    = Some w2 /\
    agenda w2 = [mkEntry 5000 None (qapp_exit (-1))].
Proof.
  split; [reflexivity|]. eexists. split; vm_compute; reflexivity.
Qed.

Example sample_after_setUp_is_setUp :
  LessLeakyTests.setUp sample_process = Some (sample_less_leaky_self, sample_after_setUp).
Proof. reflexivity. Qed.

(** C8, as the code has it.  The [setUp] of both timer cases and
    [test_controller_and_worker_better] obtain the application with
    [QCoreApplication.instance() or QCoreApplication(...)]: they never fail,
    the application is created only when none exists, and an existing one is
    returned as it is, so the process keeps a single application.  The
    constructor itself refuses to build a second one. *)
Theorem application_created_once_and_reused (w : world) :
  (exists a w1,
      LeakyTests.setUp w = Some (LeakyTests.mkSelf (Some a), w1) /\
      instance w1 = Some a /\
      (forall a0, instance w = Some a0 -> a = a0 /\ w1 = w)) /\
  (exists a o w1,
      LessLeakyTests.setUp w = Some (LessLeakyTests.mkSelf (Some a) o, w1) /\
      instance w1 = Some a /\
      (forall a0, instance w = Some a0 -> a = a0)) /\
  (forall T, exists v r,
      controller_and_worker_with_timeout T w = Some (v, r) /\
      (forall a0, instance w = Some a0 -> instance (final r) = Some a0)) /\
  (forall a0, instance w = Some a0 -> QCoreApplication_new w = None) /\
  (instance w = None ->
   exists a w1, QCoreApplication_new w = Some (a, w1) /\ instance w1 = Some a).
Proof.
  split; [|split; [|split; [|split]]].
  - destruct (leaky_setUp_total w) as [a [w1 [S1 [_ [_ [I1 R1]]]]]].
    exists a, w1. repeat split; try assumption; apply (R1 a0 H).
  - destruct (less_leaky_setUp_total w) as [a [o [w1 [S1 [_ [_ [I1 [_ R1]]]]]]]].
    exists a, o, w1. repeat split; assumption.
  - intros T. unfold controller_and_worker_with_timeout, QCoreApplication_instance,
      QCoreApplication_new.
    destruct (instance w) as [a|] eqn:Hi.
    + eexists _, _. split; [reflexivity|]. intros a0 Ha. inversion Ha; subst.
      cbn [snd]. rewrite exec_instance.
      unfold Controller_init, Controller_start, QObject_new, postEvent, QTimer_start.
      destruct (T <? 0); simpl; exact Hi.
    + eexists _, _. split; [reflexivity|]. intros a0 Ha. discriminate.
  - intros a0 Ha. unfold QCoreApplication_new. rewrite Ha. reflexivity.
  - intros Hn. unfold QCoreApplication_new. rewrite Hn.
    eexists _, _. split; reflexivity.
Qed.

Lemma application_created_once_and_reused_witness :
  QCoreApplication_new sample_after_setUp = None /\
  (exists a w1, QCoreApplication_new sample_process = Some (a, w1) /\ instance w1 = Some a).
Proof.
  split.
  - apply (proj1 (proj2 (proj2 (proj2 (application_created_once_and_reused
                                         sample_after_setUp)))) 0%nat).
    reflexivity.
  - apply (proj2 (proj2 (proj2 (proj2 (application_created_once_and_reused
                                         sample_process))))).
    reflexivity.
Defined.

(** C8, as stated, fails for [test_controller_and_worker_good]: it constructs
    the application without asking for the existing one.  In a process where
    [test_controller_and_worker_better] has run (and created the application),
    the constructor call of line 67 raises instead of handing back the
    existing instance. *)
Lemma good_test_does_not_reuse_application :
  match test_controller_and_worker_better sample_process with
  | Some (v, r) =>
      v = Passed /\ instance (final r) = Some 0%nat /\
      test_controller_and_worker_good_app (final r) = None /\
      test_controller_and_worker_good_app (final r) <> Some (0%nat, final r)
  | None => False
  end.
Proof.
  vm_compute. repeat split; try reflexivity. discriminate.
Qed.

(** C9.  Once a loop run has returned with some exit code, asking the
    application to stop again changes nothing: [exit(c')] and [quit] leave the
    world as it is, the exit code already returned stays what it was, and a
    later run behaves exactly as if the second request had not been made. *)
Theorem stop_after_stop_is_noop (w : world) (c c' : Z) :
  outcome (exec_ w) = Returned c ->
  QCoreApplication_exit c' (final (exec_ w)) = final (exec_ w) /\
  call (qapp_exit c') (final (exec_ w)) = Some (final (exec_ w)) /\
  call qapp_quit (final (exec_ w)) = Some (final (exec_ w)) /\
  exec_ (QCoreApplication_exit c' (final (exec_ w))) = exec_ (final (exec_ w)) /\
  outcome (exec_ w) = Returned c.
Proof.
  intros H. pose proof (exec_returned_not_running w c H) as Hin.
  assert (E : forall x, QCoreApplication_exit x (final (exec_ w)) = final (exec_ w)).
  { intros x. unfold QCoreApplication_exit. rewrite Hin. reflexivity. }
  repeat split.
  - apply E.
  - simpl. rewrite E. reflexivity.
  - simpl. rewrite E. reflexivity.
  - rewrite E. reflexivity.
  - exact H.
Qed.

Lemma stop_after_stop_is_noop_witness :
  QCoreApplication_exit (-1) (final (exec_ sample_scenario)) = final (exec_ sample_scenario).
Proof.
  apply (proj1 (stop_after_stop_is_noop sample_scenario 0 (-1) eq_refl)).
Defined.

(** C10.  [Controller.start] only posts the call of [worker.start]: right
    after it the worker is not running and the posted call is pending, so
    without a loop the first assertion of [test_controller_and_worker_bad]
    fails; the worker runs once the posted call is dispatched. *)
Theorem queued_start_needs_the_loop (w : world) :
  let c := fst (Controller_init w) in
  let w1 := snd (Controller_init w) in
  let w2 := Controller_start c w1 in
  isRunning c w2 = false /\
  agenda w2 = agenda w ++ [mkEntry (now w) None Worker_start] /\
  mock_calls w2 = [] /\
  fst (test_controller_and_worker_bad w) = Failed /\
  (exists w3, call Worker_start w2 = Some w3 /\ isRunning c w3 = true).
Proof.
  destruct w as [n ag inst nid dd ie er wr fq pa mc so dr rnd].
  unfold test_controller_and_worker_bad, Controller_init, Controller_start, isRunning,
    QObject_new, postEvent.
  simpl. repeat split.
  eexists. split; reflexivity.
Qed.

(** * Further properties of the samples *)

(** ** Which of the two timers wins *)

Lemma QTimer_start_nonneg (parent : option QObject) (msec : Z) (f : callable)
    (w : world) :
  0 <= msec ->
  QTimer_start parent msec f w =
  set_agenda (agenda w ++ [mkEntry (now w + msec) parent f]) w.
Proof.
  intros H. unfold QTimer_start.
  replace (msec <? 0) with false by (symmetry; apply Z.ltb_ge; lia). reflexivity.
Qed.

(** A test of [LessLeakyTests] whose work takes [d] ms under a guard of [T]
    ms: the run returns 0 at [d] when [d < T] and -1 at [T] otherwise (on a
    tie the guard, registered first, wins); the loser is still pending when
    the loop stops and the cleanup removes it. *)
Theorem less_leaky_race_decided_by_delays (self : LessLeakyTests.self_t)
    (w : world) (d T : Z) :
  agenda w = [] -> 0 <= d -> 0 <= T ->
  let o := LessLeakyTests.test_qobj self in
  let r := exec_ (LessLeakyTests._single_shot self T (qapp_exit (-1))
                    (LessLeakyTests._single_shot self 0 (single_shot o d qapp_quit) w)) in
  (d < T -> outcome r = Returned 0 /\ now (final r) = now w + d /\
            agenda (final r) = [mkEntry (now w + T) (Some o) (qapp_exit (-1))]) /\
  (T <= d -> outcome r = Returned (-1) /\ now (final r) = now w + T /\
             agenda (final r) = [mkEntry (now w + d) (Some o) qapp_quit]) /\
  (exists w', LessLeakyTests.release_qt_resources self (final r) = Some w' /\
              agenda w' = []).
Proof.
  intros Hq Hd HT o r.
  destruct w as [n ag inst nid dd ie er wr fq pa mc so dr rnd]. simpl in Hq. subst ag.
  destruct self as [a o']. cbn [LessLeakyTests.test_qobj] in o. subst o.
  assert (A : (d < T -> r = mkRun (Returned 0)
                 (mkWorld (n + d) [mkEntry (n + T) (Some o') (qapp_exit (-1))]
                    inst nid dd false (Some 0) wr fq pa mc so dr rnd)
                 [mkEntry n (Some o') (single_shot o' d qapp_quit);
                  mkEntry (n + d) (Some o') qapp_quit]) /\
              (T <= d -> r = mkRun (Returned (-1))
                 (mkWorld (n + T) [mkEntry (n + d) (Some o') qapp_quit]
                    inst nid dd false (Some (-1)) wr fq pa mc so dr rnd)
                 [mkEntry n (Some o') (single_shot o' d qapp_quit);
                  mkEntry (n + T) (Some o') (qapp_exit (-1))])).
  { split; intros Hc.
    - eassert (E : r = _).
      { unfold r, LessLeakyTests._single_shot. cbn [LessLeakyTests.test_qobj].
        rewrite !QTimer_start_nonneg by lia. unfold exec_.
        loop_continue. loop_return. }
      rewrite E. wsimpl. f_equal. f_equal; f_equal; lia.
    - eassert (E : r = _).
      { unfold r, LessLeakyTests._single_shot. cbn [LessLeakyTests.test_qobj].
        rewrite !QTimer_start_nonneg by lia. unfold exec_.
        loop_continue. loop_return. }
      rewrite E. wsimpl. f_equal. f_equal; f_equal; lia. }
  destruct A as [A1 A2].
  split; [|split].
  - intros Hc. rewrite (A1 Hc). repeat split.
  - intros Hc. rewrite (A2 Hc). repeat split.
  - destruct (Z.lt_ge_cases d T) as [Hc|Hc].
    + rewrite (A1 Hc). cbn [final].
      match goal with
      | |- context [LessLeakyTests.release_qt_resources ?s ?W] =>
          destruct (release_single_owned s W _ eq_refl) as [w' [R [Q _]]];
          [unfold owned_by; simpl; apply Nat.eqb_refl|]
      end.
      exists w'. split; assumption.
    + rewrite (A2 Hc). cbn [final].
      match goal with
      | |- context [LessLeakyTests.release_qt_resources ?s ?W] =>
          destruct (release_single_owned s W _ eq_refl) as [w' [R [Q _]]];
          [unfold owned_by; simpl; apply Nat.eqb_refl|]
      end.
      exists w'. split; assumption.
Qed.

(** ** The leak, test after test *)

(** The scenario of [test_one] and [test_two] when a stop request of an
    earlier test is still pending and due within the 3000 ms of work. *)
Lemma leaky_scenario_stale_stop (a : QObject) (w : world) (g : entry) (c : Z) :
  agenda w = [g] -> slot g = qapp_exit c -> now w < due g <= now w + 3000 ->
  let self := LeakyTests.mkSelf (Some a) in
  let r := exec_ (LeakyTests._fail_if_timeout self
                    (QTimer_start None 0 (LeakyTests.do_task self) w)) in
  outcome r = Returned c /\ now (final r) = due g /\
  agenda (final r) = [mkEntry (now w + 5000) None (qapp_exit (-1));
                      mkEntry (now w + 3000) None qapp_quit] /\
  fired r = [mkEntry (now w) None (LeakyTests.do_task self); g].
Proof.
  intros Ha Hs Hg self r.
  destruct w as [n ag inst nid dd ie er wr fq pa mc so dr rnd].
  destruct g as [gd go gs]. cbn [agenda now slot due] in *. subst ag gs.
  eassert (E : r = _).
  { unfold r, exec_, LeakyTests._fail_if_timeout, LeakyTests.do_task, self.
    cbn [LeakyTests.qapp].
    loop_continue. loop_return. }
  rewrite E. wsimpl. repeat split; try reflexivity.
  f_equal. f_equal. lia.
Qed.

(** In [LeakyTests] the guard of a test that succeeded outlives it.  Run in
    unittest's order from a process with nothing pending,
    [test_fail_if_timeout] and [test_one] pass and [test_two] fails: the guard
    left by [test_one] fires 2000 ms into [test_two], whose run returns -1
    while its own completion callback and guard are left pending in turn. *)
Theorem leaky_suite_fails_at_test_two (w : world) :
  agenda w = [] ->
  exists w',
    run_leaky_suite [LeakyTests.test_fail_if_timeout; LeakyTests.test_one;
                     LeakyTests.test_two] w
    = Some ([Passed; Passed; Failed], w') /\
    now w' = now w + 10000 /\
    agenda w' = [mkEntry (now w + 13000) None (qapp_exit (-1));
                 mkEntry (now w + 11000) None qapp_quit].
Proof.
  intros Hq. unfold run_leaky_suite, LeakyTests.run_case.
  (* test_fail_if_timeout *)
  destruct (leaky_setUp_total w) as [a0 [w0 [S0 [A0 [N0 [I0 _]]]]]]. rewrite S0.
  rewrite <- A0 in Hq.
  destruct (leaky_guard_only_run (LeakyTests.mkSelf (Some a0)) w0 Hq) as [O1 [N1 [_ Q1]]].
  unfold LeakyTests.test_fail_if_timeout at 1. cbv zeta. cbn [final snd fst].
  unfold assertEqual_exec at 1. rewrite O1. cbn [Z.eqb].
  (* test_one *)
  set (r1 := exec_ (LeakyTests._fail_if_timeout (LeakyTests.mkSelf (Some a0)) w0)) in *.
  destruct (leaky_setUp_total (final r1)) as [a1 [w1 [S1 [A1 [M1 [I1 _]]]]]]. rewrite S1.
  rewrite <- A1 in Q1.
  destruct (leaky_scenario_run a1 w1 Q1) as [O2 [N2 [Q2 _]]].
  unfold LeakyTests.test_one at 1. cbv zeta. cbn [final snd fst].
  unfold assertEqual_exec at 1. rewrite O2. cbn [Z.eqb].
  (* test_two *)
  match type of O2 with outcome ?R = _ => set (r2 := R) in * end.
  destruct (leaky_setUp_total (final r2)) as [a2 [w2 [S2 [A2 [M2 [I2 _]]]]]]. rewrite S2.
  rewrite <- A2 in Q2.
  destruct (leaky_scenario_stale_stop a2 w2 _ (-1) Q2 eq_refl) as [O3 [N3 [Q3 _]]].
  { cbn [due]. rewrite M2, N2. lia. }
  unfold LeakyTests.test_two at 1. cbv zeta. cbn [final snd fst].
  unfold assertEqual_exec at 1. rewrite O3. cbn [Z.eqb].
  eexists. split; [reflexivity|].
  split.
  - rewrite N3. cbn [due]. rewrite M1, N1, N0. lia.
  - rewrite Q3, M2, N2, M1, N1, N0. f_equal; [|f_equal]; f_equal; lia.
Qed.

Lemma leaky_suite_fails_at_test_two_witness :
  exists w',
    run_leaky_suite [LeakyTests.test_fail_if_timeout; LeakyTests.test_one;
                     LeakyTests.test_two] sample_process
    = Some ([Passed; Passed; Failed], w') /\
    now w' = now sample_process + 10000 /\
    agenda w' = [mkEntry (now sample_process + 13000) None (qapp_exit (-1));
                 mkEntry (now sample_process + 11000) None qapp_quit].
Proof.
  apply (leaky_suite_fails_at_test_two sample_process). reflexivity.
Defined.

Lemma less_leaky_race_decided_by_delays_witness :
  outcome (exec_ (LessLeakyTests._single_shot sample_less_leaky_self 5000 (qapp_exit (-1))
                    (LessLeakyTests._single_shot sample_less_leaky_self 0
                       (single_shot 1%nat 3000 qapp_quit) sample_after_setUp)))
  = Returned 0.
Proof.
  apply (proj1 (less_leaky_race_decided_by_delays sample_less_leaky_self
                  sample_after_setUp 3000 5000 eq_refl ltac:(lia) ltac:(lia))).
  lia.
Defined.


(** ** The less leaky case composes *)

(** In [LessLeakyTests] a test that starts with nothing pending leaves nothing
    pending, so the tests can be run in any order and any number of times:
    every one passes, each takes its 3000 ms, and the process ends as clean
    as it started. *)
Theorem less_leaky_suite_always_passes
    (tests : list (LessLeakyTests.self_t -> world -> verdict * run)) (w : world) :
  agenda w = [] ->
  Forall (fun t => t = LessLeakyTests.test_one \/ t = LessLeakyTests.test_two) tests ->
  exists w',
    run_less_leaky_suite tests w = Some (map (fun _ => Passed) tests, w') /\
    agenda w' = [] /\
    now w' = now w + 3000 * Z.of_nat (length tests).
Proof.
  revert w. induction tests as [|t ts IH]; intros w Hq Ht.
  - exists w. simpl. repeat split; [exact Hq|lia].
  - inversion Ht as [|t' ts' H1 H2]; subst.
    assert (Hcase : exists r w1,
               LessLeakyTests.run_case t w = Some (Passed, r, Some w1) /\
               agenda w1 = [] /\ now w1 = now w + 3000).
    { destruct H1 as [->| ->].
      - destruct (less_leaky_case_quiet w Hq) as [r [w1 [R [_ [_ [_ [_ [Q N]]]]]]]].
        exists r, w1. repeat split; assumption.
      - destruct (less_leaky_case_two_quiet w Hq) as [r [w1 [R [_ [_ [_ [_ [Q N]]]]]]]].
        exists r, w1. repeat split; assumption. }
    destruct Hcase as [r [w1 [R [Q N]]]].
    destruct (IH w1 Q H2) as [w' [S' [Q' N']]].
    exists w'. cbn [run_less_leaky_suite map length]. rewrite R, S'.
    repeat split; [exact Q'|]. rewrite N', N. lia.
Qed.

Lemma less_leaky_suite_always_passes_witness :
  exists w',
    run_less_leaky_suite [LessLeakyTests.test_one; LessLeakyTests.test_two] sample_process
    = Some ([Passed; Passed], w') /\
    agenda w' = [] /\ now w' = now sample_process + 3000 * Z.of_nat 2.
Proof.
  apply (less_leaky_suite_always_passes
           [LessLeakyTests.test_one; LessLeakyTests.test_two] sample_process eq_refl).
  repeat constructor.
Defined.

(** ** What the cleanup leaves alone *)

Lemma processEvents_nothing_due (w : world) :
  Forall (fun e => now w < due e) (agenda w) -> processEvents w = Some w.
Proof.
  intros H. unfold processEvents. cbn [processEvents_loop].
  destruct (take_next (agenda w)) as [[e rest]|] eqn:E; [|reflexivity].
  rewrite Forall_forall in H.
  assert (He : now w < due e).
  { apply H. apply (take_next_split _ _ _ E). left. reflexivity. }
  replace (due e <=? now w) with false by (symmetry; apply Z.leb_gt; exact He).
  reflexivity.
Qed.

(** [release_qt_resources] deletes the timers parented to the test's object
    and nothing else: when no other entry is due yet, the entries of other
    owners, and the unparented ones, stay pending in their order, and the
    clock and the application are untouched. *)
Theorem release_keeps_other_timers (self : LessLeakyTests.self_t) (w : world) :
  deferred_delete w = [] ->
  Forall (fun e => owned_by (LessLeakyTests.test_qobj self) e = false -> now w < due e)
         (agenda w) ->
  exists w',
    LessLeakyTests.release_qt_resources self w = Some w' /\
    agenda w' = filter (fun e => negb (owned_by (LessLeakyTests.test_qobj self) e))
                       (agenda w) /\
    now w' = now w /\ instance w' = instance w /\ deferred_delete w' = [].
Proof.
  intros Hd Ha. set (o := LessLeakyTests.test_qobj self) in *.
  unfold LessLeakyTests.release_qt_resources. fold o.
  assert (Hf : filter (fun e => negb (doomed (deferred_delete (deleteLater o w)) e))
                      (agenda (deleteLater o w))
               = filter (fun e => negb (owned_by o e)) (agenda w)).
  { unfold deleteLater. cbn [deferred_delete agenda set_deferred_delete].
    rewrite Hd. apply filter_ext. intros e. unfold doomed. simpl.
    rewrite orb_false_r. reflexivity. }
  rewrite processEvents_nothing_due.
  - eexists. split; [reflexivity|].
    unfold sendPostedEvents_DeferredDelete.
    cbn [agenda now instance deferred_delete set_deferred_delete set_agenda].
    rewrite Hf. repeat split.
  - unfold sendPostedEvents_DeferredDelete.
    cbn [agenda now set_deferred_delete set_agenda]. rewrite Hf.
    apply Forall_forall. intros e He. apply filter_In in He. destruct He as [He Ho].
    rewrite Forall_forall in Ha. apply negb_true_iff in Ho.
    exact (Ha e He Ho).
Qed.

Lemma release_keeps_other_timers_witness :
  exists w',
    LessLeakyTests.release_qt_resources sample_less_leaky_self
      (QTimer_start None 5000 (qapp_exit (-1))
         (LessLeakyTests._single_shot sample_less_leaky_self 3000 qapp_quit
            sample_after_setUp)) = Some w' /\
    agenda w' = [mkEntry 5000 None (qapp_exit (-1))].
Proof.
  destruct (release_keeps_other_timers sample_less_leaky_self
              (QTimer_start None 5000 (qapp_exit (-1))
                 (LessLeakyTests._single_shot sample_less_leaky_self 3000 qapp_quit
                    sample_after_setUp)) eq_refl) as [w' [R [A _]]].
  - repeat constructor; simpl; intros; try discriminate; lia.
  - exists w'. split; [exact R|]. rewrite A. reflexivity.
Defined.

(** ** The worker's timetable *)

Lemma Worker_run_iter_nth (m : nat) :
  forall t k rnd i,
    nth_error (Worker_run_iter m t k rnd) i =
    if Nat.ltb i m then Some (t + 100 * (Z.of_nat i + 1), rnd (k + i)%nat) else None.
Proof.
  induction m as [|m IH]; intros t k rnd i.
  - destruct i; reflexivity.
  - destruct i as [|i]; cbn [Worker_run_iter nth_error].
    + cbn [Nat.ltb Nat.leb]. f_equal. apply f_equal2; [lia|f_equal; lia].
    + rewrite IH. change (Nat.ltb (S i) (S m)) with (Nat.ltb i m).
      destruct (Nat.ltb i m); [|reflexivity].
      f_equal. apply f_equal2; [lia|f_equal; lia].
Qed.

(** [Worker.run] emits its results on a fixed timetable: the result of index
    [i] (from 0) is emitted [100 * (i + 1)] ms after the start and is the
    [i]-th number drawn; there is no result of index 20 or more, so the last
    one comes 2000 ms after the start. *)
Theorem Worker_run_timetable (t : Z) (k : nat) (rnd : nat -> Z) (i : nat) :
  nth_error (Worker_run t k rnd) i =
  if Nat.ltb i 20 then Some (t + 100 * (Z.of_nat i + 1), rnd (k + i)%nat) else None.
Proof. apply Worker_run_iter_nth. Qed.

(** ** A guard that is too short *)

Lemma filter_before_none (em : list (Z * Z)) (b t : Z) :
  Forall (fun y => t <= fst y) em -> b <= t ->
  filter (fun x => fst x <? b) em = [].
Proof.
  induction 1 as [|y em Hy _ IH]; intros Hb; simpl; [reflexivity|].
  replace (fst y <? b) with false by (symmetry; apply Z.ltb_ge; lia).
  apply IH. exact Hb.
Qed.

Lemma filter_length_lt {A : Type} (f : A -> bool) (l : list A) (x : A) :
  In x l -> f x = false -> (length (filter f l) < length l)%nat.
Proof.
  induction l as [|a l IH]; intros Hin Hx; [destruct Hin|].
  simpl. destruct Hin as [->|Hin].
  - rewrite Hx. pose proof (filter_length_le f l). lia.
  - specialize (IH Hin Hx). destruct (f a); simpl; lia.
Qed.

(** With the mock in place, the loop delivers the emissions that come before
    a pending stop request and then stops on it; the later ones are never
    delivered. *)
Lemma drain_until_stop (em : list (Z * Z)) :
  forall fuel w g c tend,
    agenda w = g :: deliveries em ++ [mkEntry tend None Worker_finished] ->
    slot g = qapp_exit c ->
    ascending em tend -> due g <= tend ->
    in_exec w = true -> exit_req w = None -> patched w = true ->
    (length em + 2 <= fuel)%nat ->
    outcome (exec_loop fuel w) = Returned c /\
    mock_calls (final (exec_loop fuel w)) =
      mock_calls w ++ map snd (filter (fun x => fst x <? due g) em) /\
    now (final (exec_loop fuel w)) = Z.max (now w) (due g).
Proof.
  induction em as [|[t v] em IH];
    intros fuel w g c tend Ha Hg Hasc Htend Hin Hx Hp Hfuel;
    destruct w as [n ag inst nid dd ie er wr fq pa mc so dr rnd];
    cbn [agenda now in_exec exit_req patched mock_calls] in *; subst;
    destruct g as [gd go gs]; cbn [slot due] in *; subst gs.
  - destruct fuel as [|k]; [simpl in Hfuel; lia|].
    cbn [deliveries map app filter].
    match goal with
    | |- context [exec_loop ?f ?W] => eassert (E : exec_loop f W = _)
    end.
    { loop_return. }
    rewrite E. wsimpl. rewrite app_nil_r. repeat split; reflexivity.
  - destruct fuel as [|k]; [simpl in Hfuel; lia|].
    cbn [ascending fst] in Hasc. destruct Hasc as [Hle [Ht Hasc]].
    cbn [deliveries map app fst snd filter].
    destruct (t <? gd) eqn:C.
    + apply Z.ltb_lt in C.
      match goal with
      | |- context [exec_loop (S k) ?W] =>
          edestruct (exec_loop_continues_proj k W) as [Eo [Ef _]];
          [ cbn [agenda]; eapply take_next_skip;
            [ apply take_next_head; apply Forall_app; split;
              [ apply deliveries_due; exact Hle | repeat constructor; cbn [due]; lia ]
            | cbn [due]; lia ]
          | wsimpl; reflexivity
          | wsimpl; reflexivity
          | rewrite Eo, Ef; clear Eo Ef ]
      end.
      match goal with
      | |- context [exec_loop k ?w2] =>
          destruct (IH k w2 (mkEntry gd go (qapp_exit c)) c tend) as [O [M N]]
      end; try reflexivity; try assumption.
      * simpl in Hfuel |- *. lia.
      * rewrite O, M, N. wcbn. rewrite <- app_assoc. repeat split; try reflexivity. lia.
    + apply Z.ltb_ge in C.
      rewrite (filter_before_none em gd t Hle C).
      match goal with
      | |- context [exec_loop ?f ?W] => eassert (E : exec_loop f W = _)
      end.
      { eapply exec_loop_returns;
          [ cbn [agenda]; apply take_next_head; constructor;
            [ cbn [due]; lia
            | apply Forall_app; split;
              [ eapply Forall_impl; [|apply deliveries_due; exact Hle];
                cbn beta; intros a Ha; cbn [due]; lia
              | repeat constructor; cbn [due]; lia ] ]
          | wsimpl; reflexivity
          | wsimpl; reflexivity ]. }
      rewrite E. wsimpl. rewrite app_nil_r. repeat split; reflexivity.
Qed.

Lemma worker_scenario_short_guard (w : world) (g : entry) (c b : Z) :
  agenda w = [g; mkEntry (now w) None Worker_start] ->
  slot g = qapp_exit c -> due g = b -> b <= now w + 2000 ->
  worker_running w = false -> patched w = true ->
  outcome (exec_ w) = Returned c /\
  mock_calls (final (exec_ w)) =
    mock_calls w ++ map snd (filter (fun x => fst x <? b)
                                    (Worker_run (now w) (draws w) (rand w))) /\
  now (final (exec_ w)) = Z.max (now w) b.
Proof.
  destruct w as [n ag inst nid dd ie er wr fq pa mc so dr rnd].
  cbn [agenda now worker_running patched mock_calls draws rand].
  intros -> Hg Hb Hdue -> ->.
  destruct g as [gd go gs]; cbn [slot due] in *; subst gs b.
  destruct (Z.le_gt_cases gd n) as [Hc|Hc].
  - rewrite (filter_before_none (Worker_run n dr rnd) gd (n + 100)); [|
      eapply Forall_impl; [|apply Worker_run_iter_times]; cbn beta; intros; lia | lia].
    match goal with
    | |- context [exec_ ?W] => eassert (E : exec_ W = _)
    end.
    { unfold exec_. loop_return. }
    rewrite E. wsimpl. rewrite app_nil_r. repeat split; reflexivity.
  - unfold exec_.
    cbn [agenda weight fold_right slot cost Nat.add].
    match goal with
    | |- context [exec_loop (S ?k) ?W] =>
        edestruct (exec_loop_continues_proj k W) as [Eo [Ef _]];
        [ wcbn; solve_take_next
        | wcbn; unfold QThread_start; wcbn;
          rewrite Worker_run_length; rewrite (Z.max_l n n) by lia; reflexivity
        | reflexivity
        | rewrite Eo, Ef; clear Eo Ef ]
    end.
    match goal with
    | |- context [exec_loop ?k ?w2] =>
        destruct (drain_until_stop (Worker_run n dr rnd) k w2
                    (mkEntry gd go (qapp_exit c)) c (n + 100 * Z.of_nat 20))
          as [O [M N]]
    end; try reflexivity.
    + apply Worker_run_iter_ascending.
    + wcbn. lia.
    + rewrite Worker_run_length. simpl. lia.
    + rewrite O, M, N. wcbn. repeat split; reflexivity.
Qed.

Lemma Worker_run_cut_short (t : Z) (k : nat) (rnd : nat -> Z) (b : Z) :
  b <= t + 2000 ->
  (length (filter (fun x => (fst x <? b)%Z) (Worker_run t k rnd)) < 20)%nat.
Proof.
  intros Hb. rewrite <- (Worker_run_length t k rnd).
  apply (filter_length_lt _ _ (t + 100 * (Z.of_nat 19 + 1), rnd (k + 19)%nat)).
  - apply (nth_error_In _ 19). unfold Worker_run. rewrite Worker_run_iter_nth.
    reflexivity.
  - cbn [fst]. apply Z.ltb_ge. lia.
Qed.

(** In [test_controller_and_worker_better] the guard is what ends a run that
    takes too long: with an interval of at most 2000 ms (the worker needs
    2000) the run returns -1 and the test fails; the mock has recorded only
    the results emitted before the guard was due, fewer than 20. *)
Theorem short_guard_fails_controller_test (w : world) (T : Z) :
  agenda w = [] -> 0 <= T <= 2000 ->
  exists r, controller_and_worker_with_timeout T w = Some (Failed, r) /\
            outcome r = Returned (-1) /\
            mock_calls (final r) =
              map snd (filter (fun x => fst x <? now w + T)
                              (Worker_run (now w) (draws w) (rand w))) /\
            (length (mock_calls (final r)) < 20)%nat /\
            now (final r) = now w + T.
Proof.
  intros Hq HT.
  destruct w as [n ag inst nid dd ie er wr fq pa mc so dr rnd]. simpl in Hq. subst ag.
  unfold controller_and_worker_with_timeout, QCoreApplication_instance,
    QCoreApplication_new, Controller_init, Controller_start, QObject_new.
  cbn [now draws rand].
  destruct inst as [a|]; cbn [instance];
    match goal with
    | |- context [exec_ ?W] => set (W0 := W)
    end;
    (edestruct (worker_scenario_short_guard W0) with (b := n + T) as [O [M N]];
     [ unfold W0; wsimpl; reflexivity | reflexivity | reflexivity | unfold W0; wsimpl; lia
     | unfold W0; wsimpl; reflexivity | unfold W0; wsimpl; reflexivity | ]);
    assert (Hm : mock_calls W0 = []) by (unfold W0; wsimpl; reflexivity);
    assert (Hn : now W0 = n) by (unfold W0; wsimpl; reflexivity);
    assert (Hd : draws W0 = dr) by (unfold W0; wsimpl; reflexivity);
    assert (Hr : rand W0 = rnd) by (unfold W0; wsimpl; reflexivity);
    rewrite Hm, Hn, Hd, Hr, app_nil_l in M; rewrite Hn in N;
    unfold assertEqual_exec; rewrite O; cbn [Z.eqb];
    (eexists; split; [reflexivity|]; split; [exact O|]; split; [exact M|]; split;
     [ rewrite M, length_map; apply Worker_run_cut_short; lia
     | rewrite N; lia ]).
Qed.

Lemma short_guard_fails_controller_test_witness :
  exists r, controller_and_worker_with_timeout 1000 sample_process = Some (Failed, r) /\
            outcome r = Returned (-1) /\
            (length (mock_calls (final r)) < 20)%nat.
Proof.
  destruct (short_guard_fails_controller_test sample_process 1000 eq_refl ltac:(lia))
    as [r [R [O [_ [L _]]]]].
  exists r. repeat split; assumption.
Defined.

(** ** No stop request, no return *)

Lemma deliveries_no_stop (fq : bool) (em : list (Z * Z)) :
  Forall (fun e => may_stop fq (slot e) = false) (deliveries em).
Proof.
  induction em as [|x em IH]; simpl; constructor; [reflexivity|assumption].
Qed.

Lemma call_without_stop (f : callable) :
  forall w w',
    call f w = Some w' -> may_stop (finished_quit w) f = false ->
    exit_req w' = exit_req w /\
    exists added, agenda w' = agenda w ++ added /\
                  Forall (fun e => may_stop (finished_quit w) (slot e) = false) added.
Proof.
  induction f as [ | c | v | ms g IHg | o ms g IHg | g IHg h IHh | | v | ];
    intros w w' H Hs; simpl in H, Hs; try discriminate.
  - destruct v; inversion H; subst. split; [reflexivity|].
    exists []. rewrite app_nil_r. split; [reflexivity|constructor].
  - inversion H; subst. unfold QTimer_start. destruct (ms <? 0).
    + split; [reflexivity|]. exists []. rewrite app_nil_r. split; [reflexivity|constructor].
    + split; [reflexivity|]. eexists. split; [reflexivity|]. repeat constructor. exact Hs.
  - inversion H; subst. unfold QTimer_start. destruct (ms <? 0).
    + split; [reflexivity|]. exists []. rewrite app_nil_r. split; [reflexivity|constructor].
    + split; [reflexivity|]. eexists. split; [reflexivity|]. repeat constructor. exact Hs.
  - apply orb_false_iff in Hs. destruct Hs as [Hg Hh].
    destruct (call g w) as [w1|] eqn:E; [|discriminate].
    destruct (IHg _ _ E Hg) as [X1 [ad1 [A1 F1]]].
    destruct (call_frame_ok _ _ _ E) as [_ _ _ _ Fq _ _].
    rewrite <- Fq in Hh.
    destruct (IHh _ _ H Hh) as [X2 [ad2 [A2 F2]]].
    split; [congruence|]. exists (ad1 ++ ad2). split.
    + rewrite A2, A1, app_assoc. reflexivity.
    + apply Forall_app. split; [exact F1|]. rewrite Fq in F2. exact F2.
  - inversion H; subst. unfold QThread_start. destruct (worker_running w).
    + split; [reflexivity|]. exists []. rewrite app_nil_r. split; [reflexivity|constructor].
    + split; [reflexivity|]. eexists. split; [reflexivity|].
      apply Forall_app. split; [apply deliveries_no_stop|].
      repeat constructor. exact Hs.
  - inversion H; subst. split; [destruct (patched w); reflexivity|].
    exists []. rewrite app_nil_r. split; [destruct (patched w); reflexivity|constructor].
  - inversion H; subst. rewrite Hs. split; [reflexivity|].
    exists []. rewrite app_nil_r. split; [reflexivity|constructor].
Qed.

Lemma exec_loop_without_stop (fuel : nat) :
  forall w,
    no_stop_pending w -> exit_req w = None ->
    (forall c, outcome (exec_loop fuel w) <> Returned c) /\
    (agenda_safe w -> outcome (exec_loop fuel w) <> CallbackRaised).
Proof.
  induction fuel as [|k IH]; intros w Hn Hx; simpl.
  - split; [intros c|intros _]; discriminate.
  - destruct (take_next (agenda w)) as [[e rest]|] eqn:E; simpl.
    2:{ split; [intros c|intros _]; discriminate. }
    unfold no_stop_pending in Hn. rewrite Forall_forall in Hn.
    assert (He : In e (agenda w)) by (apply (take_next_split _ _ _ E); left; reflexivity).
    set (w1 := set_now (Z.max (now w) (due e)) (set_agenda rest w)).
    destruct (call (slot e) w1) as [w2|] eqn:C; simpl.
    + destruct (call_without_stop _ _ _ C (Hn e He)) as [X [ad [A F]]].
      destruct (call_frame_ok _ _ _ C) as [_ _ _ _ Fq _ _].
      assert (X2 : exit_req w2 = None) by (rewrite X; exact Hx).
      rewrite X2. simpl.
      assert (Hn2 : no_stop_pending w2).
      { unfold no_stop_pending. rewrite Fq, A. simpl. apply Forall_app. split.
        - apply Forall_forall. intros x Hx'. apply Hn.
          apply (take_next_split _ _ _ E). right. exact Hx'.
        - exact F. }
      destruct (IH w2 Hn2 X2) as [R1 R2]. split; [exact R1|].
      intros Hs. apply R2.
      unfold agenda_safe in Hs |- *. rewrite Forall_forall in Hs.
      destruct (call_spawns _ _ _ C) as [ad' [A' Sp]]. rewrite A'. simpl.
      apply Forall_app. split.
      * apply Forall_forall. intros x Hx'. apply Hs.
        apply (take_next_split _ _ _ E). right. exact Hx'.
      * eapply Forall_impl; [|exact Sp]. intros x Hx'.
        eapply raises_nothing_spawns; [exact Hx'|]. apply Hs. exact He.
    + split; [intros c; discriminate|].
      intros Hs. unfold agenda_safe in Hs. rewrite Forall_forall in Hs.
      destruct (raises_nothing_call _ (Hs e He) w1) as [w2 C2]. congruence.
Qed.

(** A run ends only through a stop request.  When nothing pending asks the
    loop to stop, now or through what it schedules, and the worker's
    [finished] is not wired to [quit], [exec_] does not return: it blocks for
    ever once the pending entries are dispatched, unless a callable raises.
    That is the hang the guard of [_fail_if_timeout] is there to end. *)
Theorem run_without_stop_request_never_returns (w : world) :
  no_stop_pending w ->
  (forall c, outcome (exec_ w) <> Returned c) /\
  (agenda_safe w -> outcome (exec_ w) = Blocked).
Proof.
  intros Hn.
  destruct (exec_loop_without_stop (S (weight (agenda w)))
              (set_exit_req None (set_in_exec true w)) Hn eq_refl) as [R1 R2].
  split; [exact R1|]. intros Hs. specialize (R2 Hs).
  pose proof (exec_never_out_of_fuel w) as Hf.
  unfold exec_ in *.
  destruct (outcome (exec_loop (S (weight (agenda w)))
                       (set_exit_req None (set_in_exec true w)))) as [c| | |];
    try reflexivity; try congruence.
Qed.

Lemma run_without_stop_request_never_returns_witness :
  no_stop_pending
    (QTimer_start None 0 (QTimer_singleShot 3000 (assertIsNotNone (Some 0%nat)))
       sample_process) /\
  agenda_safe
    (QTimer_start None 0 (QTimer_singleShot 3000 (assertIsNotNone (Some 0%nat)))
       sample_process) /\
  outcome
    (exec_
      (QTimer_start None 0 (QTimer_singleShot 3000 (assertIsNotNone (Some 0%nat)))
       sample_process)) = Blocked.
Proof.
  assert (Hn : no_stop_pending
    (QTimer_start None 0 (QTimer_singleShot 3000 (assertIsNotNone (Some 0%nat)))
       sample_process)) by (repeat constructor).
  assert (Hs : agenda_safe
    (QTimer_start None 0 (QTimer_singleShot 3000 (assertIsNotNone (Some 0%nat)))
       sample_process)) by (repeat constructor).
  split; [exact Hn|]. split; [exact Hs|].
  exact (proj2 (run_without_stop_request_never_returns _ Hn) Hs).
Defined.
